(** * Ocean Q&A front end: sessions, messages, search and local persistence

    A shallow embedding of [react_js_frontend/src/App.js].  The component
    state of [App] is a record; every handler is written in a small state
    and exception monad over that record, with the render it was created
    in as an explicit argument (a handler reads the values of its render
    and queues functional updates against the state of the moment).

    The platform the code runs on is modelled in [JS]: strings as
    sequences of UTF-16 code units, [trim], [toLowerCase], [includes],
    the JSON codec and [localStorage]. *)

From Stdlib Require Import ZArith NArith Ascii String List Lia.
From stdpp Require Import base decidable option list numbers strings pretty gmap fin_maps.

Open Scope N_scope.
Open Scope nat_scope.

(** ** The platform *)

Module JS.

(** A JavaScript string: its UTF-16 code units. *)
Definition jsstring := list N.

(** The code units of a literal written with Basic Latin and Latin-1. *)
Definition js (s : string) : jsstring :=
  N_of_ascii <$> list_ascii_of_string s.

(** [`${n}`] for an integral number. *)
Definition number (z : Z) : jsstring := js (pretty z).

(** A string is falsy exactly when it is empty. *)
Definition truthy (s : jsstring) : bool :=
  match s with [] => false | _ :: _ => true end.

(** [a || b] on strings. *)
Definition orElse (a b : jsstring) : jsstring := if truthy a then a else b.

(** WhiteSpace and LineTerminator of ECMA-262, all in the basic plane. *)
Definition isWhiteSpace (c : N) : bool :=
  ((9 <=? c) && (c <=? 13) || (c =? 32) || (c =? 160) || (c =? 5760)
   || (8192 <=? c) && (c <=? 8202) || (c =? 8232) || (c =? 8233)
   || (c =? 8239) || (c =? 8287) || (c =? 12288) || (c =? 65279))%N.

Fixpoint trimStart (s : jsstring) : jsstring :=
  match s with
  | [] => []
  | c :: s' => if isWhiteSpace c then trimStart s' else s
  end.

Definition trimEnd (s : jsstring) : jsstring := reverse (trimStart (reverse s)).

(** [s.trim()] *)
Definition trim (s : jsstring) : jsstring := trimEnd (trimStart s).

(** Lower case of one code unit: the simple case mapping of the Basic
    Latin and Latin-1 Supplement blocks.  Code units of other blocks are
    left as they are. *)
Definition lowerUnit (c : N) : N :=
  (if (65 <=? c) && (c <=? 90) then c + 32
   else if (192 <=? c) && (c <=? 222) && negb (c =? 215) then c + 32
   else c)%N.

(** [s.toLowerCase()] *)
Definition toLowerCase (s : jsstring) : jsstring := lowerUnit <$> s.

Fixpoint startsWith (s q : jsstring) {struct q} : bool :=
  match q, s with
  | [], _ => true
  | _ :: _, [] => false
  | a :: q', b :: s' => (a =? b)%N && startsWith s' q'
  end.

(** [s.includes(q)] *)
Fixpoint includes (s q : jsstring) : bool :=
  startsWith s q ||
  match s with
  | [] => false
  | _ :: s' => includes s' q
  end.

(** [s.slice(0, len)] for a length that is not negative. *)
Definition slice0 (s : jsstring) (len : nat) : jsstring := take len s.

(** U+2026, one code unit. *)
Definition ellipsis : jsstring := [8230%N].

(** What is thrown, and what a promise is rejected with: any value, told
    apart by what [e.message], the one thing a handler of this program
    reads, makes of it.  Off [undefined] and [null] it cannot be read: that
    throws a TypeError.  Off any other value it is read, and [message] is
    what [`${e.message}`] prints when [e.message] is truthy, [None] when it
    is missing, empty or falsy otherwise; the errors of the platform that
    are caught and dropped are [err None], their text is not kept.  A value
    whose [message] cannot be read or printed (a getter that throws, a
    Symbol) is [unreadable], with what reading it throws. *)
Inductive thrown :=
| undefined
| null
| err (message : option jsstring)
| unreadable (raised : thrown).

(** The TypeError of reading [property] off [undefined] or [null], with
    the text V8 gives it. *)
Definition cannotRead (e : thrown) (property : jsstring) : thrown :=
  err (Some (js "Cannot read properties of "
             ++ match e with null => js "null" | _ => js "undefined" end
             ++ js " (reading '" ++ property ++ js "')")).

(** What a promise settles to, and what a block completes with: a value,
    or what was thrown. *)
Inductive completion (A : Type) : Type :=
| Normal (a : A)
| Throw (e : thrown).
Arguments Normal {A} a.
Arguments Throw {A} e.

(** [e.message || fallback] inside a template: the text, or what reading
    [e.message] throws. *)
Definition messageOr (e : thrown) (fallback : jsstring) : completion jsstring :=
  match e with
  | undefined | null => Throw (cannotRead e (js "message"))
  | err message => Normal (orElse (default [] message) fallback)
  | unreadable raised => Throw raised
  end.

End JS.

Import JS.

Arguments js : simpl never.
Arguments number : simpl never.
Arguments trim : simpl never.

Module JSON.

(** A value that JSON can carry.  A number is kept as its literal; the
    members of an object are in the order of the text. *)
#[warnings="-register-all"]
Inductive value :=
| Null
| Bool (b : bool)
| Num (literal : jsstring)
| Str (s : jsstring)
| Arr (items : list value)
| Obj (members : list (jsstring * value)).

(** *** [JSON.stringify] *)

Definition hexChar (d : N) : N := (if d <? 10 then 48 + d else 87 + d)%N.

Definition hex4 (c : N) : jsstring :=
  [hexChar (c / 4096 mod 16); hexChar (c / 256 mod 16);
   hexChar (c / 16 mod 16); hexChar (c mod 16)]%N.

Definition unicodeEscape (c : N) : jsstring := [92; 117]%N ++ hex4 c.

Definition isHighSurrogate (c : N) : bool := ((55296 <=? c) && (c <=? 56319))%N.
Definition isLowSurrogate (c : N) : bool := ((56320 <=? c) && (c <=? 57343))%N.

Definition escapeUnit (c : N) : jsstring :=
  (if c =? 8 then [92; 98]
   else if c =? 9 then [92; 116]
   else if c =? 10 then [92; 110]
   else if c =? 12 then [92; 102]
   else if c =? 13 then [92; 114]
   else if c =? 34 then [92; 34]
   else if c =? 92 then [92; 92]
   else if c <? 32 then unicodeEscape c
   else [c])%N.

(** QuoteJSONString without its two quotes: control characters, the
    quote, the backslash and lone surrogates are escaped. *)
Fixpoint quoteBody (s : jsstring) : jsstring :=
  match s with
  | [] => []
  | c :: s' =>
    if isHighSurrogate c then
      match s' with
      | d :: s'' =>
        if isLowSurrogate d then c :: d :: quoteBody s''
        else unicodeEscape c ++ quoteBody s'
      | [] => unicodeEscape c
      end
    else if isLowSurrogate c then unicodeEscape c ++ quoteBody s'
    else escapeUnit c ++ quoteBody s'
  end.

Definition quote (s : jsstring) : jsstring := [34%N] ++ quoteBody s ++ [34%N].

Fixpoint commaSeparated (parts : list jsstring) : jsstring :=
  match parts with
  | [] => []
  | [p] => p
  | p :: parts' => p ++ [44%N] ++ commaSeparated parts'
  end.

Fixpoint stringify (v : value) : jsstring :=
  match v with
  | Null => js "null"
  | Bool true => js "true"
  | Bool false => js "false"
  | Num literal => literal
  | Str s => quote s
  | Arr items => [91%N] ++ commaSeparated (map stringify items) ++ [93%N]
  | Obj members =>
      [123%N]
      ++ commaSeparated
           (map (λ kv, match kv with
                       | (k, v') => quote k ++ [58%N] ++ stringify v'
                       end) members)
      ++ [125%N]
  end.

(** *** [JSON.parse] *)

Definition isSpace (c : N) : bool :=
  ((c =? 32) || (c =? 9) || (c =? 10) || (c =? 13))%N.

Fixpoint skipSpace (s : jsstring) : jsstring :=
  match s with
  | [] => []
  | c :: s' => if isSpace c then skipSpace s' else s
  end.

Definition isDigit (c : N) : bool := ((48 <=? c) && (c <=? 57))%N.

Definition hexDigit (c : N) : option N :=
  (if isDigit c then Some (c - 48)
   else if (97 <=? c) && (c <=? 102) then Some (c - 87)
   else if (65 <=? c) && (c <=? 70) then Some (c - 55)
   else None)%N.

(** The characters of a string up to its closing quote, and what follows
    the quote. *)
Fixpoint parseChars (s : jsstring) : option (jsstring * jsstring) :=
  match s with
  | [] => None
  | c :: rest =>
    if (c =? 34)%N then Some ([], rest)
    else if (c =? 92)%N then
      match rest with
      | [] => None
      | e :: rest' =>
        let unit (u : N) :=
          match parseChars rest' with
          | Some (str, after) => Some (u :: str, after)
          | None => None
          end in
        (if e =? 34 then unit 34
         else if e =? 92 then unit 92
         else if e =? 47 then unit 47
         else if e =? 98 then unit 8
         else if e =? 102 then unit 12
         else if e =? 110 then unit 10
         else if e =? 114 then unit 13
         else if e =? 116 then unit 9
         else if e =? 117 then
           match rest' with
           | h1 :: h2 :: h3 :: h4 :: rest'' =>
             match hexDigit h1, hexDigit h2, hexDigit h3, hexDigit h4 with
             | Some d1, Some d2, Some d3, Some d4 =>
               match parseChars rest'' with
               | Some (str, after) =>
                   Some ((((d1 * 16 + d2) * 16 + d3) * 16 + d4) :: str, after)
               | None => None
               end
             | _, _, _, _ => None
             end
           | _ => None
           end
         else None)%N
      end
    else if (c <? 32)%N then None
    else
      match parseChars rest with
      | Some (str, after) => Some (c :: str, after)
      | None => None
      end
  end.

Fixpoint spanDigits (s : jsstring) : jsstring * jsstring :=
  match s with
  | [] => ([], [])
  | c :: s' =>
    if isDigit c
    then match spanDigits s' with (ds, rest) => (c :: ds, rest) end
    else ([], s)
  end.

(** An optional minus, an integer part without a leading zero (or zero
    alone), an optional fraction, an optional exponent. *)
Definition parseNumber (s : jsstring) : option (jsstring * jsstring) :=
  let '(sign, s1) :=
    match s with
    | c :: s' => if (c =? 45)%N then ([c], s') else ([], s)
    | [] => ([], s)
    end in
  match s1 with
  | [] => None
  | d :: s2 =>
    if negb (isDigit d) then None else
    let '(int, s3) :=
      if (d =? 48)%N then ([d], s2)
      else match spanDigits s2 with (ds, rest) => (d :: ds, rest) end in
    let frac :=
      match s3 with
      | p :: s4 =>
        if (p =? 46)%N then
          match spanDigits s4 with
          | ([], _) => None
          | (ds, rest) => Some (p :: ds, rest)
          end
        else Some ([], s3)
      | [] => Some ([], s3)
      end in
    match frac with
    | None => None
    | Some (fr, s5) =>
      let exp :=
        match s5 with
        | e :: s6 =>
          if (e =? 101)%N || (e =? 69)%N then
            let '(esign, s7) :=
              match s6 with
              | g :: s6' =>
                if (g =? 43)%N || (g =? 45)%N then ([g], s6') else ([], s6)
              | [] => ([], s6)
              end in
            match spanDigits s7 with
            | ([], _) => None
            | (ds, rest) => Some (e :: esign ++ ds, rest)
            end
          else Some ([], s5)
        | [] => Some ([], s5)
        end in
      match exp with
      | None => None
      | Some (ex, rest) => Some (sign ++ int ++ fr ++ ex, rest)
      end
    end
  end.

(** A later member with the same key wins; the key keeps its place. *)
Definition addMember (k : jsstring) (v : value)
    (later : list (jsstring * value)) : list (jsstring * value) :=
  match find (λ kv, bool_decide (kv.1 = k)) later with
  | Some (_, v') => (k, v') :: List.filter (λ kv, negb (bool_decide (kv.1 = k))) later
  | None => (k, v) :: later
  end.

Fixpoint parseValue (fuel : nat) (s : jsstring) : option (value * jsstring) :=
  match fuel with
  | 0 => None
  | S fuel' =>
    match skipSpace s with
    | [] => None
    | c :: rest =>
      if (c =? 110)%N then
        if startsWith rest (js "ull") then Some (Null, drop 3 rest) else None
      else if (c =? 116)%N then
        if startsWith rest (js "rue") then Some (Bool true, drop 3 rest) else None
      else if (c =? 102)%N then
        if startsWith rest (js "alse") then Some (Bool false, drop 4 rest) else None
      else if (c =? 34)%N then
        match parseChars rest with
        | Some (str, after) => Some (Str str, after)
        | None => None
        end
      else if (c =? 91)%N then
        match skipSpace rest with
        | d :: after =>
          if (d =? 93)%N then Some (Arr [], after)
          else match parseItems fuel' rest with
               | Some (items, after') => Some (Arr items, after')
               | None => None
               end
        | [] => None
        end
      else if (c =? 123)%N then
        match skipSpace rest with
        | d :: after =>
          if (d =? 125)%N then Some (Obj [], after)
          else match parseMembers fuel' rest with
               | Some (members, after') => Some (Obj members, after')
               | None => None
               end
        | [] => None
        end
      else
        match parseNumber (c :: rest) with
        | Some (literal, after) => Some (Num literal, after)
        | None => None
        end
    end
  end
with parseItems (fuel : nat) (s : jsstring) : option (list value * jsstring) :=
  match fuel with
  | 0 => None
  | S fuel' =>
    match parseValue fuel' s with
    | None => None
    | Some (v, rest) =>
      match skipSpace rest with
      | d :: after =>
        if (d =? 44)%N then
          match parseItems fuel' after with
          | Some (items, after') => Some (v :: items, after')
          | None => None
          end
        else if (d =? 93)%N then Some ([v], after)
        else None
      | [] => None
      end
    end
  end
with parseMembers (fuel : nat) (s : jsstring)
    : option (list (jsstring * value) * jsstring) :=
  match fuel with
  | 0 => None
  | S fuel' =>
    match skipSpace s with
    | q :: rest =>
      if negb (q =? 34)%N then None else
      match parseChars rest with
      | None => None
      | Some (k, rest1) =>
        match skipSpace rest1 with
        | colon :: rest2 =>
          if negb (colon =? 58)%N then None else
          match parseValue fuel' rest2 with
          | None => None
          | Some (v, rest3) =>
            match skipSpace rest3 with
            | d :: after =>
              if (d =? 44)%N then
                match parseMembers fuel' after with
                | Some (members, after') => Some (addMember k v members, after')
                | None => None
                end
              else if (d =? 125)%N then Some ([(k, v)], after)
              else None
            | [] => None
            end
          end
        | [] => None
        end
      end
    | [] => None
    end
  end.

(** [JSON.parse text]; [None] is the SyntaxError.  Every nested value
    takes at least one character and at most two units of fuel, so that
    this fuel is never used up ([parse_fuel_enough]). *)
Definition parse (text : jsstring) : option value :=
  match parseValue (2 * length text + 2) text with
  | Some (v, rest) =>
      match skipSpace rest with
      | [] => Some v
      | _ :: _ => None
      end
  | None => None
  end.

(** Values without numbers whose objects have distinct keys. *)
Fixpoint plain (v : value) : bool :=
  match v with
  | Null | Bool _ | Str _ => true
  | Num _ => false
  | Arr items => forallb plain items
  | Obj members =>
      bool_decide (NoDup (members.*1))
      && forallb (λ kv, match kv with (_, v') => plain v' end) members
  end.

(** *** For the round trip *)

Definition printMember (kv : jsstring * value) : jsstring :=
  match kv with (k, v') => quote k ++ [58%N] ++ stringify v' end.

(** A code unit that a JSON string holds as it is. *)
Definition plainUnit (c : N) : bool :=
  negb (c =? 34)%N && negb (c =? 92)%N && negb (c <? 32)%N.

(** What a printed value can start with. *)
Definition opens (c : N) : bool :=
  negb (isSpace c) && negb (c =? 93)%N && negb (c =? 125)%N.

(** The parser reads the printed value back, whatever follows it. *)
Definition Reads (v : value) : Prop :=
  ∀ n rest, 2 * length (stringify v) < n →
            parseValue n (stringify v ++ rest) = Some (v, rest).

(** Induction on a value, its elements and the values of its members. *)
Section Induction.
Variable P : value → Prop.
Hypothesis HNull : P Null.
Hypothesis HBool : ∀ b, P (Bool b).
Hypothesis HNum : ∀ literal, P (Num literal).
Hypothesis HStr : ∀ s, P (Str s).
Hypothesis HArr : ∀ items, Forall P items → P (Arr items).
Hypothesis HObj : ∀ members, Forall (λ kv, P kv.2) members → P (Obj members).

Fixpoint value_nested_ind (v : value) : P v :=
  match v with
  | Null => HNull
  | Bool b => HBool b
  | Num literal => HNum literal
  | Str s => HStr s
  | Arr items =>
      HArr items
        ((fix go (l : list value) : Forall P l :=
            match l with
            | [] => @List.Forall_nil _ P
            | x :: l' => @List.Forall_cons _ P x l' (value_nested_ind x) (go l')
            end) items)
  | Obj members =>
      HObj members
        ((fix go (l : list (jsstring * value)) : Forall (λ kv, P kv.2) l :=
            match l with
            | [] => @List.Forall_nil _ _
            | (k, x) :: l' =>
                @List.Forall_cons _ (λ kv, P kv.2) (k, x) l'
                  (value_nested_ind x) (go l')
            end) members)
  end.
End Induction.

End JSON.

(** [localStorage]: absent when the browser refuses access to it (every
    use throws a SecurityError), and otherwise a map from keys to strings
    that holds at most [quota] code units ([setItem] throws a
    QuotaExceededError beyond that). *)
Module localStorage.

Inductive t :=
| Unavailable
| Store (items : gmap jsstring jsstring) (quota : nat).

Definition used (items : gmap jsstring jsstring) : nat :=
  map_fold (λ k v n, length k + length v + n) 0 items.

(** [localStorage.getItem(key)]; [None] is [null]. *)
Definition getItem (key : jsstring) (store : t) : completion (option jsstring) :=
  match store with
  | Unavailable => Throw (err None)
  | Store items _ => Normal (items !! key)
  end.

(** [localStorage.setItem(key, value)] *)
Definition setItem (key value : jsstring) (store : t) : completion unit * t :=
  match store with
  | Unavailable => (Throw (err None), store)
  | Store items quota =>
      if used (<[key := value]> items) <=? quota
      then (Normal tt, Store (<[key := value]> items) quota)
      else (Throw (err None), store)
  end.

(** [localStorage.removeItem(key)]; it frees room and is never refused for
    lack of it. *)
Definition removeItem (key : jsstring) (store : t) : completion unit * t :=
  match store with
  | Unavailable => (Throw (err None), store)
  | Store items quota => (Normal tt, Store (delete key items) quota)
  end.

End localStorage.

(** ** The data of the application *)

Module Message.
Inductive Role := user | assistant.

Record t := mk {
  id : jsstring;
  role : Role;
  content : jsstring;
  createdAt : jsstring;
  error : bool   (* the key is written only when it is [true] *)
}.
End Message.

Module Session.
Record t := mk {
  id : jsstring;
  title : jsstring;
  createdAt : jsstring;
  messages : list Message.t
}.

Definition withTitle (s : t) (x : jsstring) : t :=
  mk (id s) x (createdAt s) (messages s).

Definition withMessages (s : t) (x : list Message.t) : t :=
  mk (id s) (title s) (createdAt s) x.
End Session.

Module AuthUser.
Record t := mk { id : jsstring; name : jsstring; email : jsstring }.
End AuthUser.

Global Instance Role_eq_dec : EqDecision Message.Role.
Proof. solve_decision. Defined.
Global Instance Message_eq_dec : EqDecision Message.t.
Proof. solve_decision. Defined.
Global Instance Session_eq_dec : EqDecision Session.t.
Proof. solve_decision. Defined.

(** The [useState] cells of [App]. *)
Record State := mkState {
  sessions : list Session.t;
  activeSessionId : option jsstring;
  question : jsstring;
  isSending : bool;
  authUser : option AuthUser.t;
  search : jsstring
}.

(** One reading of the clock: [Date.now()] and [new Date().toISOString()]. *)
Record Tick := mkTick { now : Z; iso : jsstring }.

(** [{ answer }], what the Query Service resolves with. *)
Record Response := mkResponse { answer : jsstring }.

(** ** Handlers: state and exceptions *)

Definition M (A : Type) : Type := State → completion A * State.

Global Instance M_ret : MRet M := λ A a st, (Normal a, st).
Global Instance M_bind : MBind M := λ A B f m st,
  match m st with
  | (Normal a, st') => f a st'
  | (Throw e, st') => (Throw e, st')
  end.

(** [try { body } catch (e) { handler }] *)
Definition tryCatch {A} (body : M A) (handler : thrown → M A) : M A :=
  λ st, match body st with
        | (Normal a, st') => (Normal a, st')
        | (Throw e, st') => handler e st'
        end.

(** [try { body } finally { fin }] *)
Definition tryFinally {A} (body : M A) (fin : M unit) : M A :=
  λ st, match body st with
        | (c, st') =>
            match fin st' with
            | (Normal _, st'') => (c, st'')
            | (Throw e, st'') => (Throw e, st'')
            end
        end.

(** A step without effect on the state, which may throw. *)
Definition completes {A} (c : completion A) : M A := λ st, (c, st).

(** [await p]: the handler is suspended, the events that arrive in the
    meantime move the state by [env], and it resumes with what [p]
    settled to. *)
Definition await {A} (env : State → State) (p : completion A) : M A :=
  λ st, (p, env st).

(** The setters, in their functional form. *)
Definition setSessions (f : list Session.t → list Session.t) : M unit :=
  λ st, (Normal tt, mkState (f (sessions st)) (activeSessionId st) (question st)
                            (isSending st) (authUser st) (search st)).

Definition setActiveSessionId (f : option jsstring → option jsstring) : M unit :=
  λ st, (Normal tt, mkState (sessions st) (f (activeSessionId st)) (question st)
                            (isSending st) (authUser st) (search st)).

Definition setQuestion (q : jsstring) : M unit :=
  λ st, (Normal tt, mkState (sessions st) (activeSessionId st) q
                            (isSending st) (authUser st) (search st)).

Definition setIsSending (b : bool) : M unit :=
  λ st, (Normal tt, mkState (sessions st) (activeSessionId st) (question st)
                            b (authUser st) (search st)).

(** An event: the handler of the latest render runs against the state that
    render shows. *)
Definition dispatch (h : State → M unit) (st : State) : State := (h st st).2.

(** ** [App] *)

(** [s.id === activeSessionId], the right side being a string or [null]. *)
Definition isActive (r : State) (s : Session.t) : bool :=
  bool_decide (activeSessionId r = Some (Session.id s)).

(** [sessions.find(s => s.id === activeSessionId) || null] *)
Definition activeSession (r : State) : option Session.t :=
  find (isActive r) (sessions r).

(** The caller passes the default title, [New Session], itself. *)
Definition createNewSession (t : Tick) (title : jsstring) : Session.t :=
  Session.mk (js "sess_" ++ number (now t)) title (iso t) [].

Definition truncateTitle (text : jsstring) (len : nat) : jsstring :=
  if len <? length text then slice0 text len ++ ellipsis else text.

(** The messages of a session are an array, which is truthy:
    [s.messages || []] is [s.messages]. *)
Definition updateActiveSessionMessages (r : State)
    (updater : list Message.t → list Message.t) : M unit :=
  setSessions (map (λ s,
    if negb (isActive r s) then s
    else Session.withMessages s (updater (Session.messages s)))).

(** [userMsg], [assistantMsg] and [errMsg] of [handleSend]. *)
Definition userMessage (r : State) (t : Tick) : Message.t :=
  Message.mk (js "m_" ++ number (now t)) Message.user
             (trim (question r)) (iso t) false.

Definition assistantMessage (t : Tick) (response : Response) : Message.t :=
  Message.mk (js "m_" ++ number (now t) ++ js "_asst") Message.assistant
             (answer response) (iso t) false.

(** [errMsg] with its [content] given. *)
Definition errMsg (t : Tick) (content : jsstring) : Message.t :=
  Message.mk (js "m_" ++ number (now t) ++ js "_err") Message.assistant
             content (iso t) true.

(** [e] is what was caught.  The object literal reads [e.message] for its
    [content]: with [e] being [undefined] or [null] that throws, and no
    message is made. *)
Definition errorMessage (t : Tick) (e : thrown) : completion Message.t :=
  match messageOr e (js "Unable to get answer.") with
  | Normal text => Normal (errMsg t (js "Error: " ++ text))
  | Throw e' => Throw e'
  end.

(** [t1] is the clock when the question is sent, [t2] when the Query
    Service has settled; [settled] is what [ApiClient.askQuestion] settled
    to.  [(activeSession.messages?.length || 0) === 0] is the test that
    the array is empty. *)
Definition handleSend (r : State) (t1 t2 : Tick) (env : State → State)
    (settled : completion Response) : M unit :=
  if negb (truthy (trim (question r))) then mret tt else
  match activeSession r with
  | None => mret tt
  | Some active =>
    setIsSending true;;
    let userMsg := userMessage r t1 in
    tryFinally
      (tryCatch
         (updateActiveSessionMessages r (λ d, d ++ [userMsg]);;
          setQuestion [];;
          response ← await env settled;
          let assistantMsg := assistantMessage t2 response in
          updateActiveSessionMessages r (λ d, d ++ [assistantMsg]);;
          if (length (Session.messages active) =? 0)
          then setSessions (map (λ s,
                 if bool_decide (Session.id s = Session.id active)
                 then Session.withTitle s
                        (truncateTitle (Message.content userMsg) 42)
                 else s))
          else mret tt)
         (λ e,
          errMsg ← completes (errorMessage t2 e);
          updateActiveSessionMessages r (λ d, d ++ [errMsg])))
      (setIsSending false)
  end.

Definition handleNewSession (r : State) (t : Tick) : M unit :=
  let s := createNewSession t (js "New Session") in
  setSessions (λ prev, s :: prev);;
  setActiveSessionId (λ _, Some (Session.id s)).

(** [x?.id || null] *)
Definition idOrNull (x : option Session.t) : option jsstring :=
  match x with
  | Some s => if truthy (Session.id s) then Some (Session.id s) else None
  | None => None
  end.

Definition handleDeleteSession (r : State) (id : jsstring) : M unit :=
  setSessions (filter (λ s, Session.id s ≠ id));;
  if bool_decide (activeSessionId r = Some id)
  then setActiveSessionId (λ _,
         idOrNull (find (λ s, bool_decide (Session.id s ≠ id)) (sessions r)))
  else mret tt.

(** The click handler of the Rename button; [input] is what [prompt]
    returned, [None] when it was cancelled. *)
Definition handleRename (r : State) (input : option jsstring) : M unit :=
  match activeSession r with
  | None => mret tt
  | Some active =>
    match input with
    | None => mret tt
    | Some title =>
      if truthy title && truthy (trim title)
      then setSessions (map (λ s,
             if bool_decide (Session.id s = Session.id active)
             then Session.withTitle s (trim title) else s))
      else mret tt
    end
  end.

Definition matchesQuery (q : jsstring) (s : Session.t) : bool :=
  includes (toLowerCase (Session.title s)) q ||
  existsb (λ m, includes (toLowerCase (orElse (Message.content m) [])) q)
          (Session.messages s).

Definition filteredSessions (r : State) : list Session.t :=
  let q := toLowerCase (trim (search r)) in
  if negb (truthy q) then sessions r
  else List.filter (matchesQuery q) (sessions r).

(** The change of the search box. *)
Definition setSearch (q : jsstring) : M unit :=
  λ st, (Normal tt, mkState (sessions st) (activeSessionId st) (question st)
                            (isSending st) (authUser st) q).

Definition setAuthUser (u : option AuthUser.t) : M unit :=
  λ st, (Normal tt, mkState (sessions st) (activeSessionId st) (question st)
                            (isSending st) u (search st)).

Definition handleAuthToggle (r : State) : M unit :=
  match authUser r with
  | Some _ => setAuthUser None
  | None =>
      setAuthUser (Some (AuthUser.mk (js "user_1") (js "Ocean Pro")
                                     (js "ocean.pro@example.com")))
  end.

(** ** The sessions as JSON values, and the storage gateway *)

Definition roleName (r : Message.Role) : jsstring :=
  match r with
  | Message.user => js "user"
  | Message.assistant => js "assistant"
  end.

(** The object a message is, as a JSON value. *)
Definition messageValue (m : Message.t) : JSON.value :=
  JSON.Obj ([(js "id", JSON.Str (Message.id m));
             (js "role", JSON.Str (roleName (Message.role m)));
             (js "content", JSON.Str (Message.content m));
             (js "createdAt", JSON.Str (Message.createdAt m))]
            ++ if Message.error m then [(js "error", JSON.Bool true)] else []).

(** The object a session is, as a JSON value. *)
Definition sessionValue (s : Session.t) : JSON.value :=
  JSON.Obj [(js "id", JSON.Str (Session.id s));
            (js "title", JSON.Str (Session.title s));
            (js "createdAt", JSON.Str (Session.createdAt s));
            (js "messages", JSON.Arr (messageValue <$> Session.messages s))].

(** The object a signed-in user is, as a JSON value. *)
Definition authValue (u : AuthUser.t) : JSON.value :=
  JSON.Obj [(js "id", JSON.Str (AuthUser.id u));
            (js "name", JSON.Str (AuthUser.name u));
            (js "email", JSON.Str (AuthUser.email u))].

Global Instance completion_ret : MRet completion := λ A a, Normal a.
Global Instance completion_bind : MBind completion := λ A B f c,
  match c with
  | Normal a => f a
  | Throw e => Throw e
  end.

(** [try { body } catch { handler }] for a block without effects. *)
Definition catch {A} (body : completion A) (handler : completion A) : completion A :=
  match body with
  | Normal a => Normal a
  | Throw _ => handler
  end.

Module MockStorage.

Definition key : jsstring := js "ocean_sessions_v1".
Definition authKey : jsstring := js "ocean_auth_v1".

(** [JSON.parse(raw)], which throws a SyntaxError. *)
Definition JSON_parse (raw : jsstring) : completion JSON.value :=
  match JSON.parse raw with
  | Some v => Normal v
  | None => Throw (err None)
  end.

(** [Array.isArray(parsed) ? parsed : []] *)
Definition arrayOrEmpty (parsed : JSON.value) : list JSON.value :=
  match parsed with
  | JSON.Arr items => items
  | _ => []
  end.

Definition loadSessions (store : localStorage.t) : completion (list JSON.value) :=
  catch
    (raw ← localStorage.getItem key store;
     match raw with
     | None => mret []
     | Some raw =>
       if negb (truthy raw) then mret [] else
       parsed ← JSON_parse raw;
       mret (arrayOrEmpty parsed)
     end)
    (mret []).

Definition saveSessions (sessions : list JSON.value) (store : localStorage.t)
    : completion unit * localStorage.t :=
  match localStorage.setItem key (JSON.stringify (JSON.Arr sessions)) store with
  | (Normal _, store') => (Normal tt, store')
  | (Throw _, store') => (Normal tt, store')   (* ignore *)
  end.

(** [raw ? JSON.parse(raw) : null], and [null] when anything throws. *)
Definition loadAuth (store : localStorage.t) : completion JSON.value :=
  catch
    (raw ← localStorage.getItem authKey store;
     match raw with
     | None => mret JSON.Null
     | Some raw => if truthy raw then JSON_parse raw else mret JSON.Null
     end)
    (mret JSON.Null).

(** [user] is an object, which is truthy, or [null]. *)
Definition saveAuth (user : option AuthUser.t) (store : localStorage.t)
    : completion unit * localStorage.t :=
  let attempt :=
    match user with
    | Some u => localStorage.setItem authKey (JSON.stringify (authValue u)) store
    | None => localStorage.removeItem authKey store
    end in
  match attempt with
  | (Normal _, store') => (Normal tt, store')
  | (Throw _, store') => (Normal tt, store')   (* ignore *)
  end.

End MockStorage.

(** ** Sequences of session operations *)

Inductive Op :=
| NewSession (t : Tick)
| DeleteSession (id : jsstring).

Definition step (st : State) (o : Op) : State :=
  match o with
  | NewSession t => dispatch (λ r, handleNewSession r t) st
  | DeleteSession id => dispatch (λ r, handleDeleteSession r id) st
  end.

Definition run (ops : list Op) (st : State) : State := fold_left step ops st.

Definition ids (st : State) : list jsstring := Session.id <$> sessions st.

(** ** What the statements are written with *)

Definition blank (s : jsstring) : Prop := Forall (λ c, isWhiteSpace c = true) s.

(** No white space at either end. *)
Definition trimmed (s : jsstring) : Prop :=
  (∀ c s', s = c :: s' → isWhiteSpace c = false) ∧
  (∀ c s', s = s' ++ [c] → isWhiteSpace c = false).

Definition isSubstring (q s : jsstring) : Prop := ∃ pre post, s = pre ++ q ++ post.

Definition Matches (q : jsstring) (s : Session.t) : Prop :=
  isSubstring q (toLowerCase (Session.title s)) ∨
  ∃ m, m ∈ Session.messages s ∧ isSubstring q (toLowerCase (Message.content m)).

(** Events that may arrive while a send is in flight without touching the
    sessions or the pointer: typing, searching, signing in or out. *)
Definition keepsSessions (env : State → State) : Prop :=
  ∀ s, sessions (env s) = sessions s ∧ activeSessionId (env s) = activeSessionId s.

(** The clock readings of the creations of a run. *)
Fixpoint creationTimes (ops : list Op) : list Z :=
  match ops with
  | [] => []
  | NewSession t :: ops' => now t :: creationTimes ops'
  | DeleteSession _ :: ops' => creationTimes ops'
  end.

(** The state after the search box was given [q]. *)
Definition searchFor (q : jsstring) (st : State) : State :=
  dispatch (λ _, setSearch q) st.

(** ** The rest of [App] and of the mocked API *)

(** [useState(() => sessions[0]?.id || null)] *)
Definition initialActiveSessionId (loaded : list Session.t) : option jsstring :=
  idOrNull (head loaded).

(** The state of the first render: the sessions and the user that were
    loaded, an empty question, an empty search. *)
Definition initialState (loaded : list Session.t) (auth : option AuthUser.t) : State :=
  mkState loaded (initialActiveSessionId loaded) [] false auth [].

(** The effect that runs once after the first render:
    [if (!activeSession) { ... }]. *)
Definition mountEffect (r : State) (t : Tick) : M unit :=
  match activeSession r with
  | Some _ => mret tt
  | None =>
    let newS := createNewSession t (js "New Session") in
    setSessions (λ prev, newS :: prev);;
    setActiveSessionId (λ _, Some (Session.id newS))
  end.

(** The click on a session of the history: [setActiveSessionId(s.id)]. *)
Definition handleSelectSession (r : State) (s : Session.t) : M unit :=
  setActiveSessionId (λ _, Some (Session.id s)).

(** The click on Delete: [activeSession && handleDeleteSession(activeSession.id)]. *)
Definition handleDeleteClick (r : State) : M unit :=
  match activeSession r with
  | Some active => handleDeleteSession r (Session.id active)
  | None => mret tt
  end.

(** [Composer]: the Send button is [disabled={isSending || !value.trim()}]. *)
Definition sendDisabled (value : jsstring) (sending : bool) : bool :=
  sending || negb (truthy (trim value)).

Record KeyEvent := mkKeyEvent { metaKey : bool; ctrlKey : bool; key : jsstring }.

(** [Composer.handleKeyDown]: whether [onSend] is called. *)
Definition handleKeyDown (e : KeyEvent) : bool :=
  (metaKey e || ctrlKey e) && bool_decide (key e = js "Enter").

(** What [Composer] does with a key: [onSend] is [handleSend], and it is
    called whatever [isSending] is. *)
Definition onKeyDown (r : State) (e : KeyEvent) (t1 t2 : Tick)
    (env : State → State) (settled : completion Response) : M unit :=
  if handleKeyDown e then handleSend r t1 t2 env settled else mret tt.

(** A click on the Send button reaches [onSend] when the button is not
    disabled. *)
Definition onSendClick (r : State) (t1 t2 : Tick)
    (env : State → State) (settled : completion Response) : M unit :=
  if sendDisabled (question r) (isSending r) then mret tt
  else handleSend r t1 t2 env settled.

(** [t.split] at the runs of white space: the pieces between the runs; a
    run at an end leaves an empty piece there.  [word] is the piece being read,
    [inRun] tells that the last unit was white space. *)
Fixpoint splitRuns (s word : jsstring) (inRun : bool) : list jsstring :=
  match s with
  | [] => [word]
  | c :: s' =>
    if isWhiteSpace c then
      if inRun then splitRuns s' [] true else word :: splitRuns s' [] true
    else splitRuns s' (word ++ [c]) false
  end.

Definition splitWhiteSpace (s : jsstring) : list jsstring := splitRuns s [] false.

(** [parts.join(sep)] *)
Fixpoint join (sep : jsstring) (parts : list jsstring) : jsstring :=
  match parts with
  | [] => []
  | [p] => p
  | p :: parts' => p ++ sep ++ join sep parts'
  end.

Definition synthesize (text : jsstring) : jsstring :=
  let t := trim text in
  if negb (truthy t) then js "Ask a specific question to get a specific answer."
  else
    let words := splitWhiteSpace t in
    if 12 <? length words then join (js " ") (take 12 words) ++ ellipsis else t.

Module ApiClient.

(** The first line holds U+2019. *)
Definition canned : list jsstring :=
  [js "Here" ++ [8217%N] ++ js "s a concise explanation:";
   js "Key points to consider:";
   js "An example implementation could be:";
   js "Potential pitfalls include:";
   js "Recommended next steps:"].

(** A line feed, and the bullet U+2022 followed by a space. *)
Definition lf : jsstring := [10%N].
Definition bullet : jsstring := [8226%N; 32%N].

(** [random] is [Math.floor(Math.random() * canned.length)], which the
    platform draws; an index outside the array reads [undefined].  The
    delay before the promise resolves is not modelled: the promise is
    given by what it settles to. *)
Definition askQuestion (random : nat) (sessionId question : jsstring)
    (user : option AuthUser.t) : completion Response :=
  let pick := default (js "undefined") (canned !! random) in
  Normal (mkResponse
    (pick ++ lf ++ lf ++ bullet ++ synthesize question
     ++ lf ++ bullet ++ js "Use clear structure and types"
     ++ lf ++ bullet ++ js "Handle errors and edge cases"
     ++ lf ++ lf ++ [8212%N] ++ js " Ocean Assistant")).

Definition listSessions (store : localStorage.t) : completion (list JSON.value) :=
  MockStorage.loadSessions store.

(** The session that is returned, and the store after the call. *)
Definition createSession (t : Tick) (title : jsstring) (store : localStorage.t)
    : completion Session.t * localStorage.t :=
  let s := Session.mk (js "sess_" ++ number (now t)) title (iso t) [] in
  match MockStorage.loadSessions store with
  | Throw e => (Throw e, store)
  | Normal existing =>
    match MockStorage.saveSessions (sessionValue s :: existing) store with
    | (Normal _, store') => (Normal s, store')
    | (Throw e, store') => (Throw e, store')
    end
  end.

End ApiClient.

(** ** What the user can do *)

Inductive Event :=
| ClickNewSession (t : Tick)
| ClickDelete
| ClickSession (i : nat)          (* the [i]-th session that the history shows *)
| ClickRename (input : option jsstring)
| Send (t1 t2 : Tick) (settled : completion Response)
| TypeQuestion (q : jsstring)
| TypeSearch (q : jsstring)
| ClickAuth.

Definition react (st : State) (e : Event) : State :=
  match e with
  | ClickNewSession t => dispatch (λ r, handleNewSession r t) st
  | ClickDelete => dispatch handleDeleteClick st
  | ClickSession i =>
      match filteredSessions st !! i with
      | Some s => dispatch (λ r, handleSelectSession r s) st
      | None => st
      end
  | ClickRename input => dispatch (λ r, handleRename r input) st
  | Send t1 t2 settled => dispatch (λ r, handleSend r t1 t2 id settled) st
  | TypeQuestion q => dispatch (λ _, setQuestion q) st
  | TypeSearch q => dispatch (λ _, setSearch q) st
  | ClickAuth => dispatch handleAuthToggle st
  end.

Definition runEvents (es : list Event) (st : State) : State := fold_left react es st.

(** The state when the application has started. *)
Definition started (loaded : list Session.t) (auth : option AuthUser.t) (t : Tick) : State :=
  dispatch (λ r, mountEffect r t) (initialState loaded auth).

(** Every id is a non-empty string, and the pointer is the id of a session
    of the collection, or [null] when the collection is empty. *)
Definition Consistent (st : State) : Prop :=
  (∀ s, s ∈ sessions st → Session.id s ≠ []) ∧
  match activeSessionId st with
  | Some a => a ∈ ids st
  | None => sessions st = []
  end.

(** The clock readings of the sessions that the events create. *)
Fixpoint createdBy (es : list Event) : list Tick :=
  match es with
  | [] => []
  | ClickNewSession t :: es' => t :: createdBy es'
  | _ :: es' => createdBy es'
  end.

(** [s'] is [s] later on: the same id and creation time, the messages of
    [s] and then, maybe, more. *)
Definition Continues (s s' : Session.t) : Prop :=
  Session.id s' = Session.id s ∧
  Session.createdAt s' = Session.createdAt s ∧
  Session.messages s `prefix_of` Session.messages s'.

(** The messages that the settled Query Service adds: the answer, or the
    error message, or none when making the error message throws. *)
Definition settledMessages (t2 : Tick) (settled : completion Response)
    : list Message.t :=
  match settled with
  | Normal response => [assistantMessage t2 response]
  | Throw e =>
      match errorMessage t2 e with
      | Normal m => [m]
      | Throw _ => []
      end
  end.

(** What the send itself completes with: it throws what making the error
    message throws. *)
Definition settledOutcome (t2 : Tick) (settled : completion Response)
    : completion unit :=
  match settled with
  | Normal _ => Normal tt
  | Throw e =>
      match errorMessage t2 e with
      | Normal _ => Normal tt
      | Throw e' => Throw e'
      end
  end.

(** What the end of a send makes of a session of the moment: [title] is
    the new title when the send sets one, [ms] the messages it adds. *)
Definition settledSession (active : Session.t) (title : option jsstring)
    (ms : list Message.t) (s : Session.t) : Session.t :=
  if bool_decide (Session.id s = Session.id active)
  then Session.mk (Session.id s) (default (Session.title s) title)
                  (Session.createdAt s) (Session.messages s ++ ms)
  else s.

(** The title that a send sets: none when the Query Service rejects or the
    session had messages. *)
Definition settledTitle (st : State) (active : Session.t)
    (settled : completion Response) : option jsstring :=
  match settled with
  | Normal _ =>
      if length (Session.messages active) =? 0
      then Some (truncateTitle (trim (question st)) 42) else None
  | Throw _ => None
  end.

(** The state in which a send waits for the Query Service. *)
Definition sendStarted (st : State) (t1 : Tick) : State :=
  mkState (map (λ s, if negb (isActive st s) then s
                     else Session.withMessages s
                            (Session.messages s ++ [userMessage st t1]))
               (sessions st))
          (activeSessionId st) [] true (authUser st) (search st).

(** A word: not empty, and without white space. *)
Definition isWord (w : jsstring) : Prop :=
  w ≠ [] ∧ Forall (λ c, isWhiteSpace c = false) w.

(** ** Strings *)

Section Strings.

Lemma js_inj a b : js a = js b → a = b.
Proof.
  unfold js. intros H.
  assert (Hl : list_ascii_of_string a = list_ascii_of_string b).
  { revert H. generalize (list_ascii_of_string a) (list_ascii_of_string b).
    induction l as [|x l IH]; intros [|y l'] Heq; simplify_eq/=; try done.
    f_equal; [|by apply IH].
    rewrite <- (ascii_N_embedding x), <- (ascii_N_embedding y). congruence. }
  rewrite <- (string_of_list_ascii_of_string a), <- (string_of_list_ascii_of_string b).
  by rewrite Hl.
Qed.

Lemma number_inj a b : number a = number b → a = b.
Proof. unfold number. intros H%js_inj. by apply (inj pretty). Qed.

Lemma blank_nil : blank [].
Proof. constructor. Qed.

Lemma trimStart_split s :
  ∃ pre, s = pre ++ trimStart s ∧ blank pre.
Proof.
  induction s as [|c s [pre [Hs Hpre]]]; simpl.
  - exists []. split; [done | apply blank_nil].
  - destruct (isWhiteSpace c) eqn:Hc.
    + exists (c :: pre). split; [simpl; congruence | by constructor].
    + exists []. split; [done | apply blank_nil].
Qed.

Lemma trimStart_head c s' s : trimStart s = c :: s' → isWhiteSpace c = false.
Proof.
  induction s as [|d s IH]; simpl; [done|].
  destruct (isWhiteSpace d) eqn:Hd; [done | congruence].
Qed.

Lemma trimStart_blank s : blank s → trimStart s = [].
Proof. induction 1 as [|c s Hc _ IH]; simpl; [done | by rewrite Hc]. Qed.

Lemma trimStart_nil_blank s : trimStart s = [] → blank s.
Proof.
  induction s as [|c s IH]; simpl; [intros; apply blank_nil|].
  destruct (isWhiteSpace c) eqn:Hc; [|done].
  intros H. constructor; [done | by apply IH].
Qed.

Lemma trimStart_keeps_last s c :
  isWhiteSpace c = false → trimStart (s ++ [c]) = trimStart s ++ [c].
Proof.
  intros Hc. induction s as [|d s IH]; simpl; [by rewrite Hc|].
  by destruct (isWhiteSpace d).
Qed.

Lemma trimEnd_split s :
  ∃ post, s = trimEnd s ++ post ∧ blank post.
Proof.
  unfold trimEnd. destruct (trimStart_split (reverse s)) as [pre [Hs Hpre]].
  exists (reverse pre). split.
  - rewrite <- reverse_app, <- Hs. by rewrite reverse_involutive.
  - unfold blank in *. rewrite Forall_forall in *. intros c Hin.
    apply Hpre. by apply elem_of_reverse.
Qed.

Lemma trimStart_snoc_head s d :
  isWhiteSpace d = false → ∃ v, reverse (trimStart (s ++ [d])) = d :: v.
Proof.
  intros Hd. induction s as [|x s [v IH]]; simpl.
  - rewrite Hd. by exists [].
  - destruct (isWhiteSpace x); [by exists v|].
    exists (reverse s ++ [x]).
    change (x :: s ++ [d]) with ((x :: s) ++ [d]).
    rewrite reverse_app, (reverse_cons s x). reflexivity.
Qed.

Lemma trimEnd_head s c s' :
  (∀ d t, s = d :: t → isWhiteSpace d = false) →
  trimEnd s = c :: s' → isWhiteSpace c = false.
Proof.
  unfold trimEnd. destruct s as [|d t]; [done|]. intros Hd.
  specialize (Hd d t eq_refl). rewrite reverse_cons.
  destruct (trimStart_snoc_head (reverse t) d Hd) as [v Hv].
  rewrite Hv. congruence.
Qed.

Lemma trimEnd_last s c s' : trimEnd s = s' ++ [c] → isWhiteSpace c = false.
Proof.
  unfold trimEnd. intros H.
  assert (Hr : trimStart (reverse s) = c :: reverse s').
  { rewrite <- (reverse_involutive (trimStart (reverse s))), H.
    by rewrite reverse_app. }
  by apply trimStart_head in Hr.
Qed.

(** [trim] removes a blank prefix and a blank suffix, and nothing else. *)
Lemma trim_spec s :
  ∃ pre post, s = pre ++ trim s ++ post ∧ blank pre ∧ blank post ∧ trimmed (trim s).
Proof.
  unfold trim.
  destruct (trimStart_split s) as [pre [Hs Hpre]].
  destruct (trimEnd_split (trimStart s)) as [post [Ht Hpost]].
  exists pre, post. repeat split; try done.
  - by rewrite <- Ht.
  - intros c s' Heq. eapply trimEnd_head; [|exact Heq].
    intros d t Hd. by eapply trimStart_head.
  - intros c s' Heq. by eapply trimEnd_last.
Qed.

Lemma trim_blank s : blank s ↔ trim s = [].
Proof.
  split.
  - intros H. unfold trim. by rewrite (trimStart_blank s H).
  - intros H. destruct (trim_spec s) as (pre & post & Hs & Hpre & Hpost & _).
    rewrite H in Hs. rewrite Hs. simpl. by apply Forall_app.
Qed.

Lemma truthy_true s : truthy s = true ↔ s ≠ [].
Proof. by destruct s. Qed.

Lemma truthy_false s : truthy s = false ↔ s = [].
Proof. by destruct s. Qed.

Lemma startsWith_spec s q : startsWith s q = true ↔ ∃ post, s = q ++ post.
Proof.
  revert s. induction q as [|a q IH]; intros s.
  - split; [by exists s | by destruct s].
  - destruct s as [|b s]; simpl.
    + split; [done | by intros [post Hp]].
    + rewrite andb_true_iff, N.eqb_eq, IH. split.
      * intros [-> [post ->]]. by exists post.
      * intros [post Hp]. simplify_eq/=. split; [done | by exists post].
Qed.

Lemma includes_nil q : includes [] q = startsWith [] q.
Proof. simpl. apply orb_false_r. Qed.

Lemma includes_cons b s q :
  includes (b :: s) q = startsWith (b :: s) q || includes s q.
Proof. reflexivity. Qed.

Lemma includes_spec s q : includes s q = true ↔ isSubstring q s.
Proof.
  unfold isSubstring. induction s as [|b s IH].
  - rewrite includes_nil, startsWith_spec. split.
    + intros [post Hp]. by exists [], post.
    + intros (pre & post & Hp). symmetry in Hp.
      apply app_eq_nil in Hp as [-> Hp]. exists post. by simpl in *.
  - rewrite includes_cons, orb_true_iff, startsWith_spec, IH. split.
    + intros [[post Hp] | (pre & post & Hp)].
      * by exists [], post.
      * exists (b :: pre), post. simpl. by rewrite Hp.
    + intros ([|c pre] & post & Hp).
      * left. by exists post.
      * right. simplify_eq/=. by exists pre, post.
Qed.

Lemma lowerUnit_whiteSpace c : isWhiteSpace (lowerUnit c) = isWhiteSpace c.
Proof.
  unfold lowerUnit.
  destruct ((65 <=? c) && (c <=? 90))%N eqn:H1;
    [|destruct ((192 <=? c) && (c <=? 222) && negb (c =? 215))%N eqn:H2; [|done]].
  - apply andb_true_iff in H1 as [Ha%N.leb_le Hb%N.leb_le].
    unfold isWhiteSpace.
    repeat match goal with
           | |- context [(?x <=? ?y)%N] => destruct (N.leb_spec x y); try lia
           | |- context [(?x =? ?y)%N] => destruct (N.eqb_spec x y); try lia
           end; reflexivity.
  - apply andb_true_iff in H2 as [H2 _].
    apply andb_true_iff in H2 as [Ha%N.leb_le Hb%N.leb_le].
    unfold isWhiteSpace.
    repeat match goal with
           | |- context [(?x <=? ?y)%N] => destruct (N.leb_spec x y); try lia
           | |- context [(?x =? ?y)%N] => destruct (N.eqb_spec x y); try lia
           end; reflexivity.
Qed.

Lemma trimStart_toLowerCase s : trimStart (toLowerCase s) = toLowerCase (trimStart s).
Proof.
  unfold toLowerCase. induction s as [|c s IH]; simpl; [done|].
  rewrite lowerUnit_whiteSpace. by destruct (isWhiteSpace c).
Qed.

Lemma trim_toLowerCase s : trim (toLowerCase s) = toLowerCase (trim s).
Proof.
  unfold trim, trimEnd. rewrite trimStart_toLowerCase.
  unfold toLowerCase at 1. rewrite <- fmap_reverse.
  fold (toLowerCase (reverse (trimStart s))).
  rewrite trimStart_toLowerCase. unfold toLowerCase. by rewrite fmap_reverse.
Qed.

Lemma lowerUnit_idemp c : lowerUnit (lowerUnit c) = lowerUnit c.
Proof.
  unfold lowerUnit.
  destruct ((65 <=? c) && (c <=? 90))%N eqn:H1;
    [|destruct ((192 <=? c) && (c <=? 222) && negb (c =? 215))%N eqn:H2].
  - apply andb_true_iff in H1 as [Ha%N.leb_le Hb%N.leb_le].
    destruct (N.leb_spec (c + 32) 90) as [Hle|Hgt]; [lia|].
    rewrite andb_false_r.
    destruct (N.leb_spec 192 (c + 32)) as [Hle|Hlt]; [lia | done].
  - apply andb_true_iff in H2 as [H2 _].
    apply andb_true_iff in H2 as [Ha%N.leb_le Hb%N.leb_le].
    destruct (N.leb_spec (c + 32) 90) as [Hle|Hgt]; [lia|].
    rewrite andb_false_r.
    destruct (N.leb_spec (c + 32) 222) as [Hle|Hgt']; [lia|].
    by rewrite andb_false_r.
  - by rewrite H1, H2.
Qed.

Lemma toLowerCase_idemp s : toLowerCase (toLowerCase s) = toLowerCase s.
Proof.
  unfold toLowerCase. rewrite <- list_fmap_compose.
  apply list_fmap_ext. intros _ c _. apply lowerUnit_idemp.
Qed.

Example trim_example : trim (js "  What is a B-tree? ") = js "What is a B-tree?".
Proof. reflexivity. Qed.

Example trim_line_ends : trim [10; 9; 104; 105; 160; 8232]%N = js "hi".
Proof. reflexivity. Qed.

Example toLowerCase_example : toLowerCase (js "FOO Bar") = js "foo bar".
Proof. reflexivity. Qed.

Example includes_example : includes (js "what is foo?") (js "foo") = true.
Proof. reflexivity. Qed.

Example includes_empty : includes (js "abc") [] = true.
Proof. reflexivity. Qed.

Example includes_absent : includes (js "foo") (js "foo ") = false.
Proof. reflexivity. Qed.

Example truncateTitle_short : truncateTitle (js "What is a B-tree?") 42 = js "What is a B-tree?".
Proof. reflexivity. Qed.

Example truncateTitle_long :
  truncateTitle (js "0123456789012345678901234567890123456789012345678901234567890") 42
  = js "012345678901234567890123456789012345678901" ++ [8230%N].
Proof. reflexivity. Qed.

End Strings.

(** ** The session collection and the pointer *)

Section Sessions.

Implicit Types (st r : State) (s : Session.t) (l : list Session.t).

Lemma find_map_stable {A} (p : A → bool) (f : A → A) (xs : list A) :
  (∀ x, p (f x) = p x) → find p (map f xs) = f <$> find p xs.
Proof.
  intros Hp. induction xs as [|x xs IH]; simpl; [done|].
  rewrite Hp. by destruct (p x).
Qed.

Lemma find_pointwise {A} (p q : A → bool) (xs : list A) :
  (∀ x, p x = q x) → find p xs = find q xs.
Proof.
  intros Hpq. induction xs as [|x xs IH]; simpl; [done|].
  by rewrite Hpq, IH.
Qed.

Lemma activeSession_Some st s :
  activeSession st = Some s →
  s ∈ sessions st ∧ activeSessionId st = Some (Session.id s).
Proof.
  unfold activeSession, isActive. intros [Hin Hp]%find_some.
  apply bool_decide_eq_true in Hp. split; [by apply list_elem_of_In | done].
Qed.

Lemma isActive_id st s a :
  activeSessionId st = Some (Session.id a) →
  isActive st s = bool_decide (Session.id s = Session.id a).
Proof.
  unfold isActive. intros ->. apply bool_decide_ext. split; congruence.
Qed.

Lemma sessions_delete st i :
  sessions (dispatch (λ r, handleDeleteSession r i) st)
  = filter (λ s, Session.id s ≠ i) (sessions st).
Proof.
  unfold dispatch, handleDeleteSession.
  by destruct (bool_decide (activeSessionId st = Some i)).
Qed.

Lemma ids_delete st i :
  ids (dispatch (λ r, handleDeleteSession r i) st)
  = filter (λ x, x ≠ i) (ids st).
Proof.
  unfold ids. rewrite sessions_delete.
  induction (sessions st) as [|s l IH]; [done|].
  rewrite fmap_cons, !filter_cons.
  destruct (decide (Session.id s ≠ i)); [rewrite fmap_cons|]; by rewrite IH.
Qed.

Lemma ids_new st t :
  ids (dispatch (λ r, handleNewSession r t) st)
  = (js "sess_" ++ number (now t)) :: ids st.
Proof. reflexivity. Qed.

Lemma sessionId_inj a b :
  js "sess_" ++ number a = js "sess_" ++ number b → a = b.
Proof. intros H%app_inv_head. by apply number_inj. Qed.

(** Deleting never breaks uniqueness. *)
Lemma handleDeleteSession_unique st i :
  NoDup (ids st) → NoDup (ids (dispatch (λ r, handleDeleteSession r i) st)).
Proof. rewrite ids_delete. apply NoDup_filter. Qed.

(** Creating keeps uniqueness when the clock reading was not used. *)
Lemma handleNewSession_unique st t :
  NoDup (ids st) → js "sess_" ++ number (now t) ∉ ids st →
  NoDup (ids (dispatch (λ r, handleNewSession r t) st)).
Proof. rewrite ids_new. intros. by constructor. Qed.

(** The ids stay unique along a run whose clock readings are pairwise
    distinct and not already used. *)
Theorem run_unique_distinct_clock ops st :
  NoDup (ids st) →
  NoDup (creationTimes ops) →
  (∀ n, n ∈ creationTimes ops → js "sess_" ++ number n ∉ ids st) →
  NoDup (ids (run ops st)).
Proof.
  revert st. induction ops as [|[t|i] ops IH]; intros st Hst Hts Hfresh; simpl.
  - done.
  - apply NoDup_cons in Hts as [Hnew Hts]. apply IH; [|done|].
    + apply handleNewSession_unique; [done|]. apply Hfresh. simpl. left.
    + intros n Hn. rewrite ids_new. intros [Heq|Hin]%elem_of_cons.
      * apply sessionId_inj in Heq. by subst.
      * eapply Hfresh; [|done]. simpl. by right.
  - apply IH; [by apply handleDeleteSession_unique | done |].
    intros n Hn. rewrite ids_delete. intros [_ Hin]%list_elem_of_filter.
    by eapply Hfresh.
Qed.

(** C1 (the code at the failing input): two sessions created while
    [Date.now()] gives the same reading carry the same id, whatever the
    collection was before: the ids are no longer pairwise unique. *)
Theorem same_millisecond_duplicate_ids st t :
  ¬ NoDup (ids (run [NewSession t; NewSession t] st)).
Proof.
  simpl. rewrite !ids_new. intros Hnd.
  apply NoDup_cons in Hnd as [Hnotin _]. apply Hnotin. left.
Qed.

(** C2: after the active session is deleted the pointer is [null] or the
    id of a session that is still in the collection; it is [null] when
    the collection is left empty, and when every id is a non-empty
    string it is [null] only then. *)
Theorem delete_active_pointer st i :
  activeSessionId st = Some i →
  let st' := dispatch (λ r, handleDeleteSession r i) st in
  (activeSessionId st' = None ∨
   ∃ s, s ∈ sessions st' ∧ activeSessionId st' = Some (Session.id s)) ∧
  (sessions st' = [] → activeSessionId st' = None) ∧
  ((∀ s, s ∈ sessions st → Session.id s ≠ []) →
   sessions st' ≠ [] →
   ∃ s, s ∈ sessions st' ∧ activeSessionId st' = Some (Session.id s)).
Proof.
  intros Hact. unfold dispatch, handleDeleteSession.
  rewrite bool_decide_eq_true_2 by done. cbn.
  destruct (find _ (sessions st)) as [s|] eqn:Hfind.
  - apply find_some in Hfind as [Hin Hne%bool_decide_eq_true].
    apply list_elem_of_In in Hin.
    assert (Hs : s ∈ filter (λ s, Session.id s ≠ i) (sessions st))
      by by apply list_elem_of_filter.
    simpl. destruct (truthy (Session.id s)) eqn:Ht.
    + split; [right; by exists s|]. split.
      * intros Hnil. rewrite Hnil in Hs. by apply elem_of_nil in Hs.
      * intros _ _. by exists s.
    + split; [by left|]. split; [done|].
      intros Hids _. apply truthy_false in Ht. by destruct (Hids s Hin).
  - simpl. split; [by left|]. split; [done|].
    intros _ Hne. destruct (filter _ (sessions st)) as [|s l] eqn:Hf; [done|].
    assert (Hs : s ∈ filter (λ s, Session.id s ≠ i) (sessions st))
      by (rewrite Hf; left).
    apply list_elem_of_filter in Hs as [Hid Hin].
    apply list_elem_of_In in Hin.
    eapply find_none in Hfind; [|exact Hin].
    by apply bool_decide_eq_false in Hfind.
Qed.

Lemma delete_active_pointer_witness :
  let st := mkState [Session.mk (js "a") (js "A") (js "t") [];
                     Session.mk (js "b") (js "B") (js "t") []]
                    (Some (js "a")) [] false None [] in
  let st' := dispatch (λ r, handleDeleteSession r (js "a")) st in
  activeSessionId st = Some (js "a") ∧
  activeSessionId st' = Some (js "b") ∧
  (activeSessionId st' = None ∨
   ∃ s, s ∈ sessions st' ∧ activeSessionId st' = Some (Session.id s)).
Proof.
  split; [reflexivity|]. split; [reflexivity|].
  apply (delete_active_pointer
           (mkState [Session.mk (js "a") (js "A") (js "t") [];
                     Session.mk (js "b") (js "B") (js "t") []]
                    (Some (js "a")) [] false None []) (js "a")).
  reflexivity.
Defined.

End Sessions.

(** ** Sending a question *)

Section Send.

Implicit Types (st r cur : State) (s active : Session.t).

(** Some events that keep the sessions and the pointer. *)
Lemma keepsSessions_id : keepsSessions id.
Proof. by intros s. Qed.

Lemma keepsSessions_search q : keepsSessions (searchFor q).
Proof. by intros s. Qed.

Lemma keepsSessions_typing q : keepsSessions (dispatch (λ _, setQuestion q)).
Proof. by intros s. Qed.

Lemma keepsSessions_auth : keepsSessions (dispatch handleAuthToggle).
Proof. intros s. unfold dispatch, handleAuthToggle. by destruct (authUser s). Qed.

Lemma keepsSessions_compose f g :
  keepsSessions f → keepsSessions g → keepsSessions (f ∘ g).
Proof.
  intros Hf Hg s. simpl. destruct (Hf (g s)) as [-> ->]. apply Hg.
Qed.

Lemma handleSend_blocked r t1 t2 env p cur :
  trim (question r) = [] ∨ activeSession r = None →
  handleSend r t1 t2 env p cur = (Normal tt, cur).
Proof.
  unfold handleSend. intros [Hq|Ha].
  - by rewrite Hq.
  - rewrite Ha. by destruct (truthy (trim (question r))).
Qed.

Lemma activeSession_map st st' (f : Session.t → Session.t) active :
  (∀ s, Session.id (f s) = Session.id s) →
  activeSessionId st' = activeSessionId st →
  sessions st' = map f (sessions st) →
  activeSession st = Some active →
  activeSession st' = Some (f active).
Proof.
  intros Hf Hid Hs Hact. unfold activeSession in *. rewrite Hs.
  rewrite find_map_stable.
  - replace (find (isActive st') (sessions st)) with (Some active); [done|].
    rewrite <- Hact. apply find_pointwise. intros s. unfold isActive. by rewrite Hid.
  - intros s. unfold isActive. by rewrite Hf.
Qed.

Ltac decide_ids Hid Hc :=
  repeat first
    [ rewrite (isActive_id _ _ _ Hid)
    | rewrite (bool_decide_eq_true_2 _ Hc)
    | rewrite (bool_decide_eq_false_2 _ Hc)
    | progress simpl ].

Ltac after_await Henv Hs Ha :=
  match goal with
  | |- context [?env ?x] =>
      let mid := fresh "mid" in
      destruct (Henv x) as [Hs Ha]; generalize dependent (env x);
      intros mid Hs Ha
  end; simpl in Hs, Ha.

(** The sessions of the final state are those of [st], each sent through
    [f]. *)
Ltac sessions_through st active f Hact Hid Hs :=
  match goal with
  | |- activeSession ?X = _ =>
      rewrite (activeSession_map st X f active);
      [ simpl; by rewrite bool_decide_eq_true_2 by done
      | intros ?; by case_bool_decide
      | done
      | simpl; rewrite Hs, !map_map; apply map_ext; intros s;
        destruct (decide (Session.id s = Session.id active)) as [Hc|Hc];
        decide_ids Hid Hc; [|done];
        unfold Session.withTitle, Session.withMessages; simpl;
        by rewrite <- app_assoc
      | exact Hact ]
  end.

Lemma handleSend_resolved st active t1 t2 env resp :
  keepsSessions env →
  trim (question st) ≠ [] →
  activeSession st = Some active →
  let out := handleSend st t1 t2 env (Normal resp) st in
  out.1 = Normal tt ∧
  isSending out.2 = false ∧
  activeSessionId out.2 = activeSessionId st ∧
  activeSession out.2 =
    Some (Session.mk (Session.id active)
            (if length (Session.messages active) =? 0
             then truncateTitle (trim (question st)) 42
             else Session.title active)
            (Session.createdAt active)
            (Session.messages active
               ++ [userMessage st t1; assistantMessage t2 resp])).
Proof.
  intros Henv Hq Hact. unfold handleSend.
  apply truthy_true in Hq. rewrite Hq, Hact.
  destruct (activeSession_Some _ _ Hact) as [_ Hid].
  unfold mbind, M_bind, tryFinally, tryCatch, await, updateActiveSessionMessages.
  simpl. after_await Henv Hs Ha.
  destruct (length (Session.messages active) =? 0) eqn:Hlen; simpl;
    (split; [done|]; split; [done|]; split; [done|]).
  - sessions_through st active
      (λ s, if bool_decide (Session.id s = Session.id active)
            then Session.mk (Session.id s)
                   (truncateTitle (trim (question st)) 42)
                   (Session.createdAt s)
                   (Session.messages s
                      ++ [userMessage st t1; assistantMessage t2 resp])
            else s) Hact Hid Hs.
  - sessions_through st active
      (λ s, if bool_decide (Session.id s = Session.id active)
            then Session.mk (Session.id s) (Session.title s)
                   (Session.createdAt s)
                   (Session.messages s
                      ++ [userMessage st t1; assistantMessage t2 resp])
            else s) Hact Hid Hs.
Qed.

Lemma handleSend_rejected st active t1 t2 env m :
  keepsSessions env →
  trim (question st) ≠ [] →
  activeSession st = Some active →
  let out := handleSend st t1 t2 env (Throw (err m)) st in
  out.1 = Normal tt ∧
  isSending out.2 = false ∧
  activeSessionId out.2 = activeSessionId st ∧
  activeSession out.2 =
    Some (Session.mk (Session.id active) (Session.title active)
            (Session.createdAt active)
            (Session.messages active
               ++ [userMessage st t1;
                   errMsg t2 (js "Error: "
                              ++ orElse (default [] m) (js "Unable to get answer."))])).
Proof.
  intros Henv Hq Hact. unfold handleSend.
  apply truthy_true in Hq. rewrite Hq, Hact.
  destruct (activeSession_Some _ _ Hact) as [_ Hid].
  unfold mbind, M_bind, tryFinally, tryCatch, await, completes,
    updateActiveSessionMessages.
  simpl. after_await Henv Hs Ha.
  split; [done|]; split; [done|]; split; [done|].
  sessions_through st active
    (λ s, if bool_decide (Session.id s = Session.id active)
          then Session.mk (Session.id s) (Session.title s)
                 (Session.createdAt s)
                 (Session.messages s
                    ++ [userMessage st t1;
                        errMsg t2 (js "Error: "
                                   ++ orElse (default [] m)
                                             (js "Unable to get answer."))])
          else s) Hact Hid Hs.
Qed.

(** When making the error message throws, the send throws that, after
    its [finally]; the session has the user message and no more. *)
Lemma handleSend_escapes st active t1 t2 env e e' :
  errorMessage t2 e = Throw e' →
  keepsSessions env →
  trim (question st) ≠ [] →
  activeSession st = Some active →
  let out := handleSend st t1 t2 env (Throw e) st in
  out.1 = Throw e' ∧
  isSending out.2 = false ∧
  activeSessionId out.2 = activeSessionId st ∧
  activeSession out.2 =
    Some (Session.mk (Session.id active) (Session.title active)
            (Session.createdAt active)
            (Session.messages active ++ [userMessage st t1])).
Proof.
  intros He Henv Hq Hact. unfold handleSend.
  apply truthy_true in Hq. rewrite Hq, Hact.
  destruct (activeSession_Some _ _ Hact) as [_ Hid].
  unfold mbind, M_bind, tryFinally, tryCatch, await, completes,
    updateActiveSessionMessages.
  simpl. rewrite He. after_await Henv Hs Ha.
  split; [done|]; split; [done|]; split; [done|].
  match goal with |- activeSession ?X = _ =>
    rewrite (activeSession_map st X
               (λ s, if bool_decide (Session.id s = Session.id active)
                     then Session.mk (Session.id s) (Session.title s)
                            (Session.createdAt s)
                            (Session.messages s ++ [userMessage st t1])
                     else s) active) end.
  - simpl. by rewrite bool_decide_eq_true_2 by done.
  - intros ?. by case_bool_decide.
  - done.
  - simpl. rewrite Hs. apply map_ext. intros s.
    destruct (decide (Session.id s = Session.id active)) as [Hc|Hc];
      decide_ids Hid Hc; done.
  - exact Hact.
Qed.

(** C8: with a question that is empty or only white space, or with no
    session active, [handleSend] returns at once: nothing is thrown, the
    Query Service is not waited for, and no cell of the state changes. *)
Theorem handleSend_noop st t1 t2 env settled :
  blank (question st) ∨ activeSession st = None →
  handleSend st t1 t2 env settled st = (Normal tt, st) ∧
  dispatch (λ r, handleSend r t1 t2 env settled) st = st.
Proof.
  intros H.
  assert (Hb : handleSend st t1 t2 env settled st = (Normal tt, st)).
  { apply handleSend_blocked. destruct H as [H|H]; [left|by right].
    by apply trim_blank. }
  split; [done|]. unfold dispatch. by rewrite Hb.
Qed.

Lemma handleSend_noop_witness :
  let st := mkState [Session.mk (js "s1") (js "New Session") (js "t") []]
                    (Some (js "s1")) (js "  ") false None [] in
  blank (question st) ∧
  dispatch (λ r, handleSend r (mkTick 1 (js "t1")) (mkTick 2 (js "t2")) id
                   (Normal (mkResponse (js "answer")))) st = st.
Proof.
  assert (Hb : blank (js "  ")) by (repeat constructor).
  split; [exact Hb|].
  apply (handleSend_noop
           (mkState [Session.mk (js "s1") (js "New Session") (js "t") []]
                    (Some (js "s1")) (js "  ") false None [])).
  left. exact Hb.
Defined.

(** C3, as the code has it: the title set by the first successful send
    of a session is made from the content of the user message, that is
    the question with the white space at its ends removed: that text
    itself when it has at most 42 code units, otherwise its first 42
    code units followed by one ellipsis. *)
Theorem first_send_title st active t1 t2 env resp :
  keepsSessions env →
  trim (question st) ≠ [] →
  activeSession st = Some active →
  Session.messages active = [] →
  let q := trim (question st) in
  let st' := dispatch (λ r, handleSend r t1 t2 env (Normal resp)) st in
  ∃ s', activeSession st' = Some s' ∧
        (length q ≤ 42 → Session.title s' = q) ∧
        (42 < length q →
         Session.title s' = take 42 q ++ [8230%N] ∧
         length (Session.title s') = 43).
Proof.
  intros Henv Hq Hact Hnil q st'.
  destruct (handleSend_resolved st active t1 t2 env resp Henv Hq Hact)
    as (_ & _ & _ & Hs).
  eexists. split; [exact Hs|]. rewrite Hnil. simpl.
  unfold truncateTitle, slice0, ellipsis. fold q. split; intros Hlen.
  - destruct (Nat.ltb_spec 42 (length q)); [lia | done].
  - destruct (Nat.ltb_spec 42 (length q)); [|lia]. split; [done|].
    rewrite length_app, length_take, Nat.min_l by lia. reflexivity.
Qed.

Lemma first_send_title_witness :
  let st := mkState [Session.mk (js "s1") (js "New Session") (js "t") []]
                    (Some (js "s1")) (js " What is a B-tree? ") false None [] in
  let st' := dispatch (λ r, handleSend r (mkTick 1 (js "t1")) (mkTick 2 (js "t2"))
                              id (Normal (mkResponse (js "answer")))) st in
  ∃ s', activeSession st' = Some s' ∧
        (length (trim (question st)) ≤ 42 → Session.title s' = trim (question st)) ∧
        (42 < length (trim (question st)) →
         Session.title s' = take 42 (trim (question st)) ++ [8230%N] ∧
         length (Session.title s') = 43).
Proof.
  apply (first_send_title
           (mkState [Session.mk (js "s1") (js "New Session") (js "t") []]
                    (Some (js "s1")) (js " What is a B-tree? ") false None [])
           (Session.mk (js "s1") (js "New Session") (js "t") [])).
  - intros s. split; reflexivity.
  - vm_compute. discriminate.
  - reflexivity.
  - reflexivity.
Defined.

(** C3, as stated, fails: a question with white space around it is sent
    and answered, and the title is not the question. *)
Lemma first_send_title_raw_counterexample :
  ¬ (∀ st active t1 t2 resp,
       trim (question st) ≠ [] →
       activeSession st = Some active →
       Session.messages active = [] →
       ∀ s', activeSession
               (dispatch (λ r, handleSend r t1 t2 id (Normal resp)) st) = Some s' →
             (length (question st) ≤ 42 → Session.title s' = question st) ∧
             (42 < length (question st) →
              Session.title s' = take 42 (question st) ++ ellipsis)).
Proof.
  intros H.
  specialize (H (mkState [Session.mk (js "s1") (js "New Session") (js "t") []]
                         (Some (js "s1")) (js " hi ") false None [])
                (Session.mk (js "s1") (js "New Session") (js "t") [])
                (mkTick 1 (js "t1")) (mkTick 2 (js "t2")) (mkResponse (js "answer"))).
  destruct (H ltac:(vm_compute; discriminate) eq_refl eq_refl _ eq_refl) as [Hle _].
  specialize (Hle ltac:(vm_compute; lia)). vm_compute in Hle. discriminate.
Qed.

(** C7 (the code at the failing input): when the Query Service rejects
    with [undefined] or [null], reading [e.message] in the [catch] block
    throws a TypeError.  No error message is appended: the active session
    has gained the user message and nothing more, and the send itself
    throws, after its [finally] has set [isSending] to false. *)
Theorem nullish_rejection_escapes st active t1 t2 env e :
  e = undefined ∨ e = null →
  keepsSessions env →
  trim (question st) ≠ [] →
  activeSession st = Some active →
  let st' := dispatch (λ r, handleSend r t1 t2 env (Throw e)) st in
  (handleSend st t1 t2 env (Throw e) st).1 = Throw (cannotRead e (js "message")) ∧
  (∃ s', activeSession st' = Some s' ∧
         Session.messages s' = Session.messages active ++ [userMessage st t1] ∧
         Forall (λ m, Message.error m = true → m ∈ Session.messages active)
                (Session.messages s')) ∧
  isSending st' = false.
Proof.
  intros He Henv Hq Hact st'.
  assert (Hthrows : errorMessage t2 e = Throw (cannotRead e (js "message")))
    by (destruct He as [-> | ->]; reflexivity).
  destruct (handleSend_escapes st active t1 t2 env e _ Hthrows Henv Hq Hact)
    as (Hout & Hsend & _ & Hs).
  split; [done|]. split; [|done].
  eexists. split; [exact Hs|]. split; [done|]. simpl.
  apply Forall_app. split.
  - apply Forall_forall. by intros m Hm _.
  - by repeat constructor.
Qed.

Lemma nullish_rejection_escapes_witness :
  let active := Session.mk (js "s1") (js "New Session") (js "t") [] in
  let st := mkState [active] (Some (js "s1")) (js "What is a B-tree?") false None [] in
  let st' := dispatch (λ r, handleSend r (mkTick 1 (js "t1")) (mkTick 2 (js "t2"))
                              id (Throw undefined)) st in
  (handleSend st (mkTick 1 (js "t1")) (mkTick 2 (js "t2")) id (Throw undefined) st).1
  = Throw (err (Some (js "Cannot read properties of undefined (reading 'message')"))) ∧
  (Session.messages <$> activeSession st') = Some [userMessage st (mkTick 1 (js "t1"))].
Proof.
  intros active st st'.
  destruct (nullish_rejection_escapes st active (mkTick 1 (js "t1")) (mkTick 2 (js "t2"))
              id undefined) as (Hout & (s' & Hs' & Hm & _) & _).
  - by left.
  - intros s. split; reflexivity.
  - vm_compute. discriminate.
  - reflexivity.
  - split; [exact Hout|]. fold st' in Hs'. rewrite Hs'. simpl. by rewrite Hm.
Defined.

(** X25: when the Query Service rejects with a value other than
    [undefined] and [null] whose message can be read, the send does not
    throw, the active session has gained the user message and then exactly
    one more message, of role assistant and flagged as an error, whose
    content is [Error: ] followed by the message of the reason, or by
    [Unable to get answer.] when that is missing or empty; and [isSending]
    is false, as it is after a send that succeeded. *)
Theorem rejected_send st active t1 t2 env message :
  keepsSessions env →
  trim (question st) ≠ [] →
  activeSession st = Some active →
  let st' := dispatch (λ r, handleSend r t1 t2 env (Throw (err message))) st in
  (handleSend st t1 t2 env (Throw (err message)) st).1 = Normal tt ∧
  (∃ u m s', activeSession st' = Some s' ∧
             Session.messages s' = Session.messages active ++ [u; m] ∧
             Message.role u = Message.user ∧
             Message.content u = trim (question st) ∧
             Message.role m = Message.assistant ∧
             Message.error m = true ∧
             Message.content m
             = js "Error: " ++ match message with
                               | Some (c :: text) => c :: text
                               | _ => js "Unable to get answer."
                               end) ∧
  isSending st' = false ∧
  ∀ resp, isSending (dispatch (λ r, handleSend r t1 t2 env (Normal resp)) st) = false.
Proof.
  intros Henv Hq Hact st'.
  destruct (handleSend_rejected st active t1 t2 env message Henv Hq Hact)
    as (Hn & Hsend & _ & Hs).
  split; [done|]. split; [|split; [done|]].
  - exists (userMessage st t1). eexists. eexists.
    split; [exact Hs|]. repeat (split; [done|]). simpl.
    by destruct message as [[|c text]|].
  - intros resp.
    by destruct (handleSend_resolved st active t1 t2 env resp Henv Hq Hact)
      as (_ & Hsend' & _).
Qed.

Lemma rejected_send_witness :
  let st := mkState [Session.mk (js "s1") (js "New Session") (js "t") []]
                    (Some (js "s1")) (js "What is a B-tree?") false None [] in
  let st' := dispatch (λ r, handleSend r (mkTick 1 (js "t1")) (mkTick 2 (js "t2"))
                              id (Throw (err (Some (js "offline"))))) st in
  (Message.content <$> (activeSession st' ≫= λ s, last (Session.messages s)))
    = Some (js "Error: offline") ∧
  isSending st' = false.
Proof.
  split; [reflexivity|].
  apply (rejected_send
           (mkState [Session.mk (js "s1") (js "New Session") (js "t") []]
                    (Some (js "s1")) (js "What is a B-tree?") false None [])
           (Session.mk (js "s1") (js "New Session") (js "t") [])
           (mkTick 1 (js "t1")) (mkTick 2 (js "t2")) id (Some (js "offline"))).
  - intros s. split; reflexivity.
  - vm_compute. discriminate.
  - reflexivity.
Defined.

(** C9: a question that passes the guard, sent in an active session
    without messages and answered by the Query Service, leaves the
    session with exactly two messages: the user's, holding the trimmed
    question, and then the assistant's, holding the answer. *)
Theorem first_exchange st active t1 t2 env resp :
  keepsSessions env →
  trim (question st) ≠ [] →
  activeSession st = Some active →
  Session.messages active = [] →
  let st' := dispatch (λ r, handleSend r t1 t2 env (Normal resp)) st in
  ∃ u a s', activeSession st' = Some s' ∧
            Session.messages s' = [u; a] ∧
            Message.role u = Message.user ∧
            Message.content u = trim (question st) ∧
            Message.role a = Message.assistant ∧
            Message.content a = answer resp ∧
            Message.error a = false.
Proof.
  intros Henv Hq Hact Hnil st'.
  destruct (handleSend_resolved st active t1 t2 env resp Henv Hq Hact)
    as (_ & _ & _ & Hs).
  exists (userMessage st t1), (assistantMessage t2 resp). eexists.
  split; [exact Hs|]. rewrite Hnil. done.
Qed.

Lemma first_exchange_witness :
  let st := mkState [Session.mk (js "s1") (js "New Session") (js "t") []]
                    (Some (js "s1")) (js "What is a B-tree?") false None [] in
  let st' := dispatch (λ r, handleSend r (mkTick 1 (js "t1")) (mkTick 2 (js "t2"))
                              id (Normal (mkResponse (js "A B-tree is a tree.")))) st in
  (Session.title <$> activeSession st') = Some (js "What is a B-tree?") ∧
  ∃ u a s', activeSession st' = Some s' ∧
            Session.messages s' = [u; a] ∧
            Message.role u = Message.user ∧
            Message.content u = trim (question st) ∧
            Message.role a = Message.assistant ∧
            Message.content a = js "A B-tree is a tree." ∧
            Message.error a = false.
Proof.
  split; [reflexivity|].
  apply (first_exchange
           (mkState [Session.mk (js "s1") (js "New Session") (js "t") []]
                    (Some (js "s1")) (js "What is a B-tree?") false None [])
           (Session.mk (js "s1") (js "New Session") (js "t") [])
           (mkTick 1 (js "t1")) (mkTick 2 (js "t2")) id
           (mkResponse (js "A B-tree is a tree."))).
  - intros s. split; reflexivity.
  - vm_compute. discriminate.
  - reflexivity.
  - reflexivity.
Defined.

End Send.

(** ** Renaming the active session *)

Section Rename.

Implicit Types (st : State) (s active : Session.t).

Lemma trim_nil : trim [] = [].
Proof. reflexivity. Qed.

Lemma sessions_rename st active input :
  activeSession st = Some active →
  trim input ≠ [] →
  dispatch (λ r, handleRename r (Some input)) st
  = mkState (map (λ s, if bool_decide (Session.id s = Session.id active)
                       then Session.withTitle s (trim input) else s)
                 (sessions st))
            (activeSessionId st) (question st) (isSending st)
            (authUser st) (search st).
Proof.
  intros Hact Hq. unfold dispatch, handleRename. rewrite Hact.
  assert (Hi : truthy input = true).
  { apply truthy_true. intros ->. by rewrite trim_nil in Hq. }
  apply truthy_true in Hq. by rewrite Hi, Hq.
Qed.

Lemma unique_id_same_session st s active i :
  NoDup (ids st) →
  sessions st !! i = Some s →
  active ∈ sessions st →
  Session.id s = Session.id active →
  s = active.
Proof.
  intros Hnd Hi [j Hj]%list_elem_of_lookup Heq.
  assert (i = j) as ->; [|congruence].
  eapply NoDup_lookup; [exact Hnd | |]; unfold ids; rewrite list_lookup_fmap.
  - by rewrite Hi.
  - rewrite Hj. simpl. by rewrite Heq.
Qed.

(** C10: a rename with a title that is not blank stores the title with
    the white space at its two ends removed, and nothing more is
    changed: the active session keeps its id, creation time and
    messages, the sessions with another id are as they were, at their
    places (with unique ids: every other session), and so are the other
    cells of the state. *)
Theorem rename_stores_trimmed st active input :
  activeSession st = Some active →
  trim input ≠ [] →
  let st' := dispatch (λ r, handleRename r (Some input)) st in
  (∃ s', activeSession st' = Some s' ∧
         Session.title s' = trim input ∧
         Session.id s' = Session.id active ∧
         Session.createdAt s' = Session.createdAt active ∧
         Session.messages s' = Session.messages active) ∧
  (∃ pre post, input = pre ++ trim input ++ post ∧
               blank pre ∧ blank post ∧ trimmed (trim input)) ∧
  length (sessions st') = length (sessions st) ∧
  (∀ i s, sessions st !! i = Some s →
          Session.id s ≠ Session.id active → sessions st' !! i = Some s) ∧
  (NoDup (ids st) →
   ∀ i s, sessions st !! i = Some s → s ≠ active → sessions st' !! i = Some s) ∧
  activeSessionId st' = activeSessionId st ∧
  question st' = question st ∧
  isSending st' = isSending st ∧
  authUser st' = authUser st ∧
  search st' = search st.
Proof.
  intros Hact Hq st'. subst st'. rewrite (sessions_rename st active input Hact Hq).
  destruct (activeSession_Some _ _ Hact) as [Hin Hid].
  assert (Hother : ∀ i s, sessions st !! i = Some s →
            Session.id s ≠ Session.id active →
            map (λ s, if bool_decide (Session.id s = Session.id active)
                      then Session.withTitle s (trim input) else s)
                (sessions st) !! i = Some s).
  { intros i s Hi Hne. change (map ?f ?l) with (f <$> l).
    rewrite list_lookup_fmap, Hi. simpl.
    by rewrite (bool_decide_eq_false_2 _ Hne). }
  split; [|split; [apply trim_spec|]]; [|simpl; repeat split; try done].
  - eexists. split.
    + eapply (activeSession_map st _
                (λ s, if bool_decide (Session.id s = Session.id active)
                      then Session.withTitle s (trim input) else s) active);
        [intros s; by case_bool_decide | done | done | exact Hact].
    + by rewrite bool_decide_eq_true_2 by done.
  - apply length_map.
  - intros Hnd i s Hi Hne. apply Hother; [done|].
    intros Heq. apply Hne. by eapply unique_id_same_session.
Qed.

Lemma rename_stores_trimmed_witness :
  let st := mkState [Session.mk (js "s1") (js "New Session") (js "t") [];
                     Session.mk (js "s2") (js "Other") (js "t") []]
                    (Some (js "s1")) [] false None [] in
  let st' := dispatch (λ r, handleRename r (Some (js "  B-trees "))) st in
  Session.title <$> sessions st' = [js "B-trees"; js "Other"] ∧
  ∃ s', activeSession st' = Some s' ∧
        Session.title s' = trim (js "  B-trees ") ∧
        Session.id s' = js "s1" ∧
        Session.createdAt s' = js "t" ∧
        Session.messages s' = [].
Proof.
  split; [reflexivity|].
  apply (rename_stores_trimmed
           (mkState [Session.mk (js "s1") (js "New Session") (js "t") [];
                     Session.mk (js "s2") (js "Other") (js "t") []]
                    (Some (js "s1")) [] false None [])
           (Session.mk (js "s1") (js "New Session") (js "t") [])
           (js "  B-trees ")).
  - reflexivity.
  - vm_compute. discriminate.
Defined.

End Rename.

(** ** Searching the history *)

Section Search.

Implicit Types (st : State) (s : Session.t) (q : jsstring).

Lemma matchesQuery_spec q s : matchesQuery q s = true ↔ Matches q s.
Proof.
  unfold matchesQuery, Matches.
  rewrite orb_true_iff, includes_spec, existsb_exists.
  split; intros [H|(m & Hm & Hq)]; try (by left); right; exists m.
  - apply includes_spec in Hq. apply list_elem_of_In in Hm.
    split; [done|]. unfold orElse in Hq.
    destruct (Message.content m); exact Hq.
  - split; [by apply list_elem_of_In|]. apply includes_spec.
    unfold orElse. by destruct (Message.content m).
Qed.

Lemma filteredSessions_lower st q :
  filteredSessions (searchFor q st) = filteredSessions (searchFor (toLowerCase q) st).
Proof.
  unfold filteredSessions, searchFor, dispatch, setSearch. simpl.
  by rewrite trim_toLowerCase, toLowerCase_idemp.
Qed.

(** C6, as the code has it: a query that is empty once trimmed gives the
    sessions back as they are; any other query keeps, in their order,
    exactly the sessions whose lower-cased title, or the lower-cased
    content of one of whose messages, has as a substring the query
    trimmed and then lower-cased.  The case of the query does not count:
    FOO and foo select the same sessions. *)
Theorem filteredSessions_spec st :
  let q := toLowerCase (trim (search st)) in
  (trim (search st) = [] → filteredSessions st = sessions st) ∧
  (trim (search st) ≠ [] →
   filteredSessions st = List.filter (matchesQuery q) (sessions st)) ∧
  (∀ s, matchesQuery q s = true ↔ Matches q s) ∧
  filteredSessions (searchFor (js "FOO") st) = filteredSessions (searchFor (js "foo") st) ∧
  (∀ q', filteredSessions (searchFor q' st)
         = filteredSessions (searchFor (toLowerCase q') st)).
Proof.
  intros q. split; [|split; [|split; [|split]]].
  - intros Hq. unfold filteredSessions. by rewrite Hq.
  - intros Hq. unfold filteredSessions. fold q. destruct q eqn:Hlow; [|done].
    subst q. unfold toLowerCase in Hlow. by apply fmap_nil_inv in Hlow.
  - apply matchesQuery_spec.
  - exact (filteredSessions_lower st (js "FOO")).
  - intros q'. apply filteredSessions_lower.
Qed.

Lemma filteredSessions_spec_witness :
  let foo := Session.mk (js "s1") (js "Foo fighters") (js "t") [] in
  let bar := Session.mk (js "s2") (js "Bar") (js "t")
               [Message.mk (js "m_1") Message.user (js "what is foo?") (js "t") false] in
  let baz := Session.mk (js "s3") (js "Baz") (js "t") [] in
  let st := mkState [foo; bar; baz] None [] false None (js " FOO ") in
  trim (search st) ≠ [] ∧ filteredSessions st = [foo; bar].
Proof.
  intros foo bar baz st.
  assert (Hq : trim (search st) ≠ []) by (vm_compute; discriminate).
  split; [exact Hq|].
  destruct (filteredSessions_spec st) as (_ & Hfilter & _).
  rewrite (Hfilter Hq). reflexivity.
Defined.

(** C6, as stated, fails: the query is trimmed before it is looked for,
    so a query typed with a space after it still finds the titles that
    hold it without the space. *)
Lemma filteredSessions_untrimmed_counterexample :
  ¬ (∀ st, trim (search st) ≠ [] →
           ∀ s, s ∈ filteredSessions st ↔
                s ∈ sessions st ∧ Matches (toLowerCase (search st)) s).
Proof.
  intros H.
  pose (foo := Session.mk (js "s1") (js "foo") (js "t") []).
  specialize (H (mkState [foo] None [] false None (js "foo "))
                ltac:(vm_compute; discriminate) foo).
  destruct H as [H _].
  assert (Hin : foo ∈ filteredSessions (mkState [foo] None [] false None (js "foo ")))
    by (vm_compute; left).
  destruct (H Hin) as [_ Hm]. apply matchesQuery_spec in Hm.
  vm_compute in Hm. discriminate.
Qed.

End Search.

(** ** The JSON codec *)

Section JSONFacts.
Import JSON.

Lemma hexDigit_hexChar d : (d < 16)%N → hexDigit (hexChar d) = Some d.
Proof.
  intros Hd. unfold hexDigit, hexChar, isDigit.
  destruct (N.ltb_spec d 10).
  - destruct (N.leb_spec 48 (48 + d)); [|lia].
    destruct (N.leb_spec (48 + d) 57); [|lia]. simpl. f_equal. lia.
  - destruct (N.leb_spec (87 + d) 57); [lia|]. rewrite andb_false_r.
    destruct (N.leb_spec 97 (87 + d)); [|lia].
    destruct (N.leb_spec (87 + d) 102); [|lia]. simpl. f_equal. lia.
Qed.

Lemma hex4_value c :
  (c < 65536)%N →
  ((((c / 4096 mod 16) * 16 + c / 256 mod 16) * 16 + c / 16 mod 16) * 16
   + c mod 16)%N = c.
Proof.
  intros Hc.
  assert (H1 := N.div_mod c 16 ltac:(lia)).
  assert (H2 := N.div_mod (c / 16) 16 ltac:(lia)).
  assert (H3 := N.div_mod (c / 16 / 16) 16 ltac:(lia)).
  assert (H4 : (c / 16 / 16 / 16 < 16)%N).
  { rewrite !N.Div0.div_div. simpl. apply N.Div0.div_lt_upper_bound. lia. }
  replace (c / 4096)%N with (c / 16 / 16 / 16)%N
    by (rewrite !N.Div0.div_div; reflexivity).
  replace (c / 256)%N with (c / 16 / 16)%N
    by (rewrite !N.Div0.div_div; reflexivity).
  rewrite (N.mod_small _ _ H4). lia.
Qed.

Lemma parseChars_unicodeEscape c rest :
  (c < 65536)%N →
  parseChars (unicodeEscape c ++ rest)
  = match parseChars rest with
    | Some (str, after) => Some (c :: str, after)
    | None => None
    end.
Proof.
  intros Hc. unfold unicodeEscape, hex4. simpl.
  rewrite !hexDigit_hexChar by (apply N.mod_lt; lia).
  by rewrite hex4_value.
Qed.

Lemma parseChars_plainUnit c rest :
  plainUnit c = true →
  parseChars (c :: rest)
  = match parseChars rest with
    | Some (str, after) => Some (c :: str, after)
    | None => None
    end.
Proof.
  unfold plainUnit. rewrite !andb_true_iff, !negb_true_iff.
  intros [[H1 H2] H3]. simpl. by rewrite H1, H2, H3.
Qed.

Lemma parseChars_escapeUnit c rest :
  parseChars (escapeUnit c ++ rest)
  = match parseChars rest with
    | Some (str, after) => Some (c :: str, after)
    | None => None
    end.
Proof.
  unfold escapeUnit.
  repeat match goal with
         | |- context [if (c =? ?k)%N then _ else _] =>
             destruct (N.eqb_spec c k) as [->|?]; [reflexivity|]
         end.
  destruct (N.ltb_spec c 32).
  - apply parseChars_unicodeEscape. lia.
  - apply parseChars_plainUnit. unfold plainUnit.
    rewrite !andb_true_iff, !negb_true_iff, !N.eqb_neq, N.ltb_ge. done.
Qed.

Lemma surrogate_plain c :
  isHighSurrogate c = true ∨ isLowSurrogate c = true → plainUnit c = true.
Proof.
  unfold isHighSurrogate, isLowSurrogate, plainUnit.
  rewrite !andb_true_iff, !negb_true_iff, !N.eqb_neq, N.ltb_ge, !N.leb_le. lia.
Qed.

Lemma surrogate_small c :
  isHighSurrogate c = true ∨ isLowSurrogate c = true → (c < 65536)%N.
Proof.
  unfold isHighSurrogate, isLowSurrogate.
  rewrite !andb_true_iff, !N.leb_le. lia.
Qed.

Lemma quoteBody_cons c s :
  quoteBody (c :: s)
  = if isHighSurrogate c then
      match s with
      | d :: s' =>
        if isLowSurrogate d then c :: d :: quoteBody s'
        else unicodeEscape c ++ quoteBody s
      | [] => unicodeEscape c
      end
    else if isLowSurrogate c then unicodeEscape c ++ quoteBody s
    else escapeUnit c ++ quoteBody s.
Proof. reflexivity. Qed.

Lemma parseChars_quoteBody_bounded n s rest :
  length s ≤ n → parseChars (quoteBody s ++ 34%N :: rest) = Some (s, rest).
Proof.
  revert s. induction n as [|n IH]; intros s Hn.
  - destruct s; [reflexivity | simpl in Hn; lia].
  - destruct s as [|c s]; [reflexivity|]. simpl in Hn. rewrite quoteBody_cons.
    destruct (isHighSurrogate c) eqn:Hh.
    + destruct s as [|d s].
      * rewrite parseChars_unicodeEscape by (apply surrogate_small; auto).
        reflexivity.
      * destruct (isLowSurrogate d) eqn:Hl.
        -- rewrite <- !app_comm_cons.
           rewrite parseChars_plainUnit by (apply surrogate_plain; auto).
           rewrite parseChars_plainUnit by (apply surrogate_plain; auto).
           rewrite IH; [done | simpl in Hn; lia].
        -- rewrite <- app_assoc.
           rewrite parseChars_unicodeEscape by (apply surrogate_small; auto).
           rewrite IH; [done | lia].
    + destruct (isLowSurrogate c) eqn:Hl.
      * rewrite <- app_assoc.
        rewrite parseChars_unicodeEscape by (apply surrogate_small; auto).
        rewrite IH; [done | lia].
      * rewrite <- app_assoc, parseChars_escapeUnit.
        rewrite IH; [done | lia].
Qed.

Lemma parseChars_quote s rest :
  parseChars (quoteBody s ++ 34%N :: rest) = Some (s, rest).
Proof. by apply (parseChars_quoteBody_bounded (length s)). Qed.

Lemma parseValue_S n s :
  parseValue (S n) s
  = match skipSpace s with
    | [] => None
    | c :: rest =>
      if (c =? 110)%N then
        if startsWith rest (js "ull") then Some (Null, drop 3 rest) else None
      else if (c =? 116)%N then
        if startsWith rest (js "rue") then Some (Bool true, drop 3 rest) else None
      else if (c =? 102)%N then
        if startsWith rest (js "alse") then Some (Bool false, drop 4 rest) else None
      else if (c =? 34)%N then
        match parseChars rest with
        | Some (str, after) => Some (Str str, after)
        | None => None
        end
      else if (c =? 91)%N then
        match skipSpace rest with
        | d :: after =>
          if (d =? 93)%N then Some (Arr [], after)
          else match parseItems n rest with
               | Some (items, after') => Some (Arr items, after')
               | None => None
               end
        | [] => None
        end
      else if (c =? 123)%N then
        match skipSpace rest with
        | d :: after =>
          if (d =? 125)%N then Some (Obj [], after)
          else match parseMembers n rest with
               | Some (members, after') => Some (Obj members, after')
               | None => None
               end
        | [] => None
        end
      else
        match parseNumber (c :: rest) with
        | Some (literal, after) => Some (Num literal, after)
        | None => None
        end
    end.
Proof. reflexivity. Qed.

Lemma parseItems_S n s :
  parseItems (S n) s
  = match parseValue n s with
    | None => None
    | Some (v, rest) =>
      match skipSpace rest with
      | d :: after =>
        if (d =? 44)%N then
          match parseItems n after with
          | Some (items, after') => Some (v :: items, after')
          | None => None
          end
        else if (d =? 93)%N then Some ([v], after)
        else None
      | [] => None
      end
    end.
Proof. reflexivity. Qed.

Lemma parseMembers_S n s :
  parseMembers (S n) s
  = match skipSpace s with
    | q :: rest =>
      if negb (q =? 34)%N then None else
      match parseChars rest with
      | None => None
      | Some (k, rest1) =>
        match skipSpace rest1 with
        | colon :: rest2 =>
          if negb (colon =? 58)%N then None else
          match parseValue n rest2 with
          | None => None
          | Some (v, rest3) =>
            match skipSpace rest3 with
            | d :: after =>
              if (d =? 44)%N then
                match parseMembers n after with
                | Some (members, after') => Some (addMember k v members, after')
                | None => None
                end
              else if (d =? 125)%N then Some ([(k, v)], after)
              else None
            | [] => None
            end
          end
        | [] => None
        end
      end
    | [] => None
    end.
Proof. reflexivity. Qed.

Lemma stringify_opens v :
  plain v = true → ∃ c tail, stringify v = c :: tail ∧ opens c = true.
Proof.
  destruct v as [| [|] | literal | s | items | members]; intros Hp;
    try discriminate; eexists _, _; (split; [reflexivity|reflexivity]).
Qed.

Lemma skipSpace_opens c tail :
  opens c = true → skipSpace (c :: tail) = c :: tail.
Proof.
  unfold opens. rewrite !andb_true_iff, !negb_true_iff. intros [[H _] _].
  simpl. by rewrite H.
Qed.

Local Arguments commaSeparated : simpl never.
Local Arguments stringify : simpl never.
Local Arguments length : simpl never.

Ltac lengths H :=
  repeat first [ rewrite length_app in H | rewrite length_cons in H
               | progress change (length (@nil N)) with 0 in H ].

Lemma commaSeparated_cons2 p q ps :
  commaSeparated (p :: q :: ps) = p ++ 44%N :: commaSeparated (q :: ps).
Proof. reflexivity. Qed.

Lemma parseItems_stringify items :
  items ≠ [] → Forall Reads items →
  ∀ n rest, 2 * length (commaSeparated (map stringify items)) + 1 < n →
            parseItems n (commaSeparated (map stringify items) ++ 93%N :: rest)
            = Some (items, rest).
Proof.
  intros Hne Hall. induction Hall as [|v items Hv Hall IH]; [done|].
  intros n rest Hn. destruct n as [|n]; [lia|]. rewrite parseItems_S.
  destruct items as [|w items].
  - change (commaSeparated (map stringify [v])) with (stringify v) in *.
    rewrite Hv by lia. reflexivity.
  - rewrite map_cons, (map_cons _ w), commaSeparated_cons2 in *.
    rewrite length_app, length_cons in Hn.
    rewrite <- app_assoc, Hv by lia. simpl.
    rewrite IH; [done | done | lia].
Qed.

Local Arguments printMember : simpl never.

Lemma addMember_fresh k v members :
  k ∉ members.*1 → addMember k v members = (k, v) :: members.
Proof.
  intros Hk. unfold addMember.
  destruct (find _ members) as [[k' v']|] eqn:Hf; [|done].
  apply find_some in Hf as [Hin Heq%bool_decide_eq_true]. simpl in Heq. subst.
  destruct Hk. apply list_elem_of_fmap. exists (k, v'). split; [done|].
  by apply list_elem_of_In.
Qed.

Lemma parseMembers_stringify members :
  members ≠ [] → NoDup (members.*1) → Forall (λ kv, Reads kv.2) members →
  ∀ n rest, 2 * length (commaSeparated (map printMember members)) + 1 < n →
            parseMembers n (commaSeparated (map printMember members) ++ 125%N :: rest)
            = Some (members, rest).
Proof.
  intros Hne Hnd Hall. induction Hall as [|[k v] members Hv Hall IH]; [done|].
  intros n rest Hn. destruct n as [|n]; [lia|]. rewrite parseMembers_S.
  apply NoDup_cons in Hnd as [Hk Hnd]. simpl in Hv.
  destruct members as [|w members].
  - change (commaSeparated (map printMember [(k, v)]))
      with (quote k ++ [58%N] ++ stringify v) in *.
    unfold quote in *. lengths Hn. simpl. rewrite <- !app_assoc. simpl.
    rewrite parseChars_quote. simpl.
    rewrite Hv by lia. reflexivity.
  - rewrite map_cons, (map_cons _ w), commaSeparated_cons2 in *.
    unfold printMember at 1. unfold printMember at 1 in Hn. unfold quote in *.
    lengths Hn. simpl. rewrite <- !app_assoc. simpl.
    rewrite parseChars_quote. simpl.
    rewrite Hv by lia. simpl.
    rewrite IH; [|done|done|lia]. by rewrite addMember_fresh.
Qed.

Lemma stringify_Arr items :
  stringify (Arr items) = 91%N :: commaSeparated (map stringify items) ++ [93%N].
Proof. reflexivity. Qed.

Lemma stringify_Obj members :
  stringify (Obj members) = 123%N :: commaSeparated (map printMember members) ++ [125%N].
Proof. reflexivity. Qed.

Lemma commaSeparated_opens (parts : list jsstring) c tail p :
  p = c :: tail → ∃ tail', commaSeparated (p :: parts) = c :: tail'.
Proof. intros ->. destruct parts; [by exists tail | by eexists]. Qed.

Lemma parseValue_stringify v : plain v = true → Reads v.
Proof.
  induction v as [| b | literal | s | items IH | members IH] using value_nested_ind;
    intros Hp n rest Hn; (destruct n as [|n]; [lia|]); rewrite parseValue_S.
  - reflexivity.
  - by destruct b.
  - discriminate.
  - change (stringify (Str s)) with (34%N :: quoteBody s ++ [34%N]).
    rewrite <- app_comm_cons, <- app_assoc. simpl.
    by rewrite parseChars_quote.
  - simpl in Hp.
    assert (Hall : Forall Reads items).
    { rewrite forallb_forall in Hp. rewrite Forall_forall in IH |- *.
      intros x Hx. apply IH; [done|]. apply Hp. by apply list_elem_of_In. }
    rewrite stringify_Arr in *. lengths Hn.
    rewrite <- app_comm_cons, <- app_assoc. simpl.
    destruct items as [|x items]; [reflexivity|].
    destruct (stringify_opens x) as (c & tail & Hc & Hopen).
    { by apply andb_true_iff in Hp as [? _]. }
    destruct (commaSeparated_opens (map stringify items) c tail _ Hc)
      as [tail' Hhead].
    rewrite map_cons in *. rewrite Hhead at 1.
    rewrite <- app_comm_cons, skipSpace_opens by done.
    unfold opens in Hopen. rewrite !andb_true_iff, !negb_true_iff in Hopen.
    destruct Hopen as [[_ H93] _]. rewrite H93.
    rewrite <- map_cons.
    rewrite parseItems_stringify; [done | done | done |].
    rewrite map_cons. lia.
  - simpl in Hp. apply andb_true_iff in Hp as [Hnd%bool_decide_eq_true Hp].
    assert (Hall : Forall (λ kv, Reads kv.2) members).
    { rewrite forallb_forall in Hp. rewrite Forall_forall in IH |- *.
      intros [k x] Hx. apply (IH _ Hx). apply list_elem_of_In in Hx.
      by apply Hp in Hx. }
    rewrite stringify_Obj in *. lengths Hn.
    rewrite <- app_comm_cons, <- app_assoc. simpl.
    destruct members as [|[k x] members]; [reflexivity|].
    destruct (commaSeparated_opens (map printMember members) 34%N
                ((quoteBody k ++ [34%N]) ++ [58%N] ++ stringify x)
                (printMember (k, x)) eq_refl) as [tail' Hhead].
    rewrite map_cons in *. rewrite Hhead at 1. simpl.
    rewrite <- map_cons.
    rewrite parseMembers_stringify; [done | done | done | done |].
    rewrite map_cons. lia.
Qed.

Lemma parse_stringify v : plain v = true → parse (stringify v) = Some v.
Proof.
  intros Hp. unfold parse.
  rewrite <- (app_nil_r (stringify v)) at 2.
  rewrite (parseValue_stringify v Hp) by lia. reflexivity.
Qed.

Example parse_array : parse (js " [true, null , [ ] ] ") = Some (Arr [Bool true; Null; Arr []]).
Proof. reflexivity. Qed.

Example parse_numbers :
  parse (js "[1.5e3,-0]") = Some (Arr [Num (js "1.5e3"); Num (js "-0")]).
Proof. reflexivity. Qed.

(** A string with an escaped line feed, in an array. *)
Example parse_escape :
  parse [91; 34; 97; 92; 110; 34; 93]%N = Some (Arr [Str [97; 10]%N]).
Proof. reflexivity. Qed.

(** An object whose key comes twice: the later value, at the first place. *)
Example parse_duplicate_key :
  parse [123; 34; 97; 34; 58; 116; 114; 117; 101; 44;
         34; 98; 34; 58; 110; 117; 108; 108; 44;
         34; 97; 34; 58; 102; 97; 108; 115; 101; 125]%N
  = Some (Obj [(js "a", Bool false); (js "b", Null)]).
Proof. reflexivity. Qed.

Example parse_not_json : parse (js "not json") = None.
Proof. reflexivity. Qed.

Example parse_trailing_comma : parse (js "[true,]") = None.
Proof. reflexivity. Qed.

Example parse_leading_zero : parse (js "[01]") = None.
Proof. reflexivity. Qed.

Example parse_empty : parse [] = None.
Proof. reflexivity. Qed.

(** A control character and a lone surrogate are escaped, a pair is not. *)
Example stringify_escapes :
  stringify (Str [9; 55357; 56832; 55357]%N)
  = [34; 92; 116; 55357; 56832; 92; 117; 100; 56; 51; 100; 34]%N.
Proof. reflexivity. Qed.

End JSONFacts.

(** ** The fuel of the parser *)

Section Fuel.
Import JSON.

Lemma skipSpace_length s : length (skipSpace s) ≤ length s.
Proof.
  induction s as [|c s IH]; simpl; [done|].
  destruct (isSpace c); simpl; lia.
Qed.

Lemma parseChars_length_bounded n s str after :
  length s ≤ n → parseChars s = Some (str, after) → length after < length s.
Proof.
  revert s str after. induction n as [|n IH]; intros s str after Hn.
  { destruct s; [done | simpl in Hn; lia]. }
  destruct s as [|c rest]; [done|]. simpl in Hn. simpl.
  destruct (c =? 34)%N; [intros [= <- <-]; lia|].
  destruct (c =? 92)%N.
  - destruct rest as [|e rest']; [done|]. simpl in Hn.
    assert (Hunit : ∀ u, match parseChars rest' with
                         | Some (str0, after0) => Some (u :: str0, after0)
                         | None => None
                         end = Some (str, after) →
                         length after < S (length (e :: rest'))).
    { intros u. destruct (parseChars rest') as [[str0 after0]|] eqn:Hp; [|done].
      intros [= <- <-]. apply IH in Hp; simpl in *; lia. }
    repeat match goal with
           | |- context [if (e =? ?k)%N then _ else _] =>
               destruct (e =? k)%N; [apply Hunit|]
           end.
    destruct (e =? 117)%N; [|done].
    destruct rest' as [|h1 [|h2 [|h3 [|h4 rest'']]]]; try done.
    destruct (hexDigit h1), (hexDigit h2), (hexDigit h3), (hexDigit h4); try done.
    destruct (parseChars rest'') as [[str0 after0]|] eqn:Hp; [|done].
    intros [= <- <-]. apply IH in Hp; simpl in *; lia.
  - destruct (c <? 32)%N; [done|].
    destruct (parseChars rest) as [[str0 after0]|] eqn:Hp; [|done].
    intros [= <- <-]. apply IH in Hp; simpl in *; lia.
Qed.

Lemma parseChars_length s str after :
  parseChars s = Some (str, after) → length after < length s.
Proof. by apply (parseChars_length_bounded (length s)). Qed.

Lemma spanDigits_length s ds rest :
  spanDigits s = (ds, rest) → length rest ≤ length s.
Proof.
  revert ds rest. induction s as [|c s IH]; intros ds rest; simpl.
  - intros [= <- <-]. done.
  - destruct (isDigit c).
    + destruct (spanDigits s) as [ds' rest'] eqn:Hs. intros [= <- <-].
      specialize (IH _ _ eq_refl). lia.
    + intros [= <- <-]. simpl. lia.
Qed.

Lemma parseNumber_length s literal after :
  parseNumber s = Some (literal, after) → length after < length s.
Proof.
  unfold parseNumber.
  destruct (match s with
            | [] => ([], s)
            | c :: s' => if (c =? 45)%N then ([c], s') else ([], s)
            end) as [sign s1] eqn:Hsign.
  assert (H1 : length s1 ≤ length s).
  { destruct s as [|c s']; [by injection Hsign as <- <-|].
    destruct (c =? 45)%N; injection Hsign as <- <-; simpl; lia. }
  destruct s1 as [|d s2]; [done|]. simpl in H1.
  destruct (isDigit d); simpl; [|done].
  destruct (if (d =? 48)%N then ([d], s2)
            else let (ds, rest) := spanDigits s2 in (d :: ds, rest))
    as [int s3] eqn:Hint.
  assert (H3 : length s3 ≤ length s2).
  { destruct (d =? 48)%N; [by injection Hint as <- <-|].
    destruct (spanDigits s2) as [ds rest] eqn:Hs. injection Hint as <- <-.
    by apply spanDigits_length in Hs. }
  destruct (match s3 with
            | [] => Some ([], s3)
            | p :: s4 =>
              if (p =? 46)%N
              then match spanDigits s4 with
                   | ([], _) => None
                   | (ds, rest) => Some (p :: ds, rest)
                   end
              else Some ([], s3)
            end) as [[fr s5]|] eqn:Hfrac; [|done].
  assert (H5 : length s5 ≤ length s3).
  { destruct s3 as [|p s4]; [by injection Hfrac as <- <-|].
    destruct (p =? 46)%N; [|by injection Hfrac as <- <-].
    destruct (spanDigits s4) as [[|d0 ds] rest] eqn:Hs; [done|].
    injection Hfrac as <- <-. apply spanDigits_length in Hs. simpl. lia. }
  destruct (match s5 with
            | [] => Some ([], s5)
            | e :: s6 =>
              if (e =? 101)%N || (e =? 69)%N
              then let '(esign, s7) :=
                     match s6 with
                     | [] => ([], s6)
                     | g :: s6' =>
                       if (g =? 43)%N || (g =? 45)%N then ([g], s6') else ([], s6)
                     end in
                   match spanDigits s7 with
                   | ([], _) => None
                   | (ds, rest) => Some (e :: esign ++ ds, rest)
                   end
              else Some ([], s5)
            end) as [[ex rest]|] eqn:Hexp; [|done].
  intros [= <- <-].
  assert (H7 : length rest ≤ length s5); [|lia].
  destruct s5 as [|e s6]; [by injection Hexp as <- <-|].
  destruct ((e =? 101)%N || (e =? 69)%N); [|by injection Hexp as <- <-].
  destruct (match s6 with
            | [] => ([], s6)
            | g :: s6' =>
              if (g =? 43)%N || (g =? 45)%N then ([g], s6') else ([], s6)
            end) as [esign s7] eqn:Hes.
  assert (H6 : length s7 ≤ length s6).
  { destruct s6 as [|g s6']; [by injection Hes as <- <-|].
    destruct ((g =? 43)%N || (g =? 45)%N); injection Hes as <- <-; simpl; lia. }
  destruct (spanDigits s7) as [[|d0 ds] rest'] eqn:Hs; [done|].
  injection Hexp as <- <-. apply spanDigits_length in Hs. simpl. lia.
Qed.

Lemma skipSpace_cons_length s c rest :
  skipSpace s = c :: rest → length rest < length s.
Proof. intros H. pose proof (skipSpace_length s) as Hl. rewrite H in Hl. simpl in Hl. lia. Qed.

(** Whatever is parsed takes at least one character. *)
Lemma parse_consumes n :
  (∀ s v after, parseValue n s = Some (v, after) → length after < length s) ∧
  (∀ s items after, parseItems n s = Some (items, after) → length after < length s) ∧
  (∀ s members after, parseMembers n s = Some (members, after) → length after < length s).
Proof.
  induction n as [|n (IHV & IHI & IHM)]; [done|].
  split; [|split].
  - intros s v after. rewrite parseValue_S.
    destruct (skipSpace s) as [|c rest] eqn:Hs; [done|].
    apply skipSpace_cons_length in Hs.
    assert (Hdrop : ∀ k, length (drop k rest) < length s)
      by (intros k; rewrite length_drop; lia).
    destruct (c =? 110)%N.
    { destruct (startsWith rest (js "ull")); [|done]. intros [= <- <-]. apply Hdrop. }
    destruct (c =? 116)%N.
    { destruct (startsWith rest (js "rue")); [|done]. intros [= <- <-]. apply Hdrop. }
    destruct (c =? 102)%N.
    { destruct (startsWith rest (js "alse")); [|done]. intros [= <- <-]. apply Hdrop. }
    destruct (c =? 34)%N.
    { destruct (parseChars rest) as [[str after0]|] eqn:Hp; [|done].
      intros [= <- <-]. apply parseChars_length in Hp. lia. }
    destruct (c =? 91)%N.
    { destruct (skipSpace rest) as [|d after0] eqn:Hr; [done|].
      apply skipSpace_cons_length in Hr.
      destruct (d =? 93)%N; [intros [= <- <-]; lia|].
      destruct (parseItems n rest) as [[items after1]|] eqn:Hp; [|done].
      intros [= <- <-]. apply IHI in Hp. lia. }
    destruct (c =? 123)%N.
    { destruct (skipSpace rest) as [|d after0] eqn:Hr; [done|].
      apply skipSpace_cons_length in Hr.
      destruct (d =? 125)%N; [intros [= <- <-]; lia|].
      destruct (parseMembers n rest) as [[members after1]|] eqn:Hp; [|done].
      intros [= <- <-]. apply IHM in Hp. lia. }
    destruct (parseNumber (c :: rest)) as [[literal after0]|] eqn:Hp; [|done].
    intros [= <- <-]. apply parseNumber_length in Hp. simpl in Hp. lia.
  - intros s items after. rewrite parseItems_S.
    destruct (parseValue n s) as [[v rest]|] eqn:Hv; [|done]. apply IHV in Hv.
    destruct (skipSpace rest) as [|d after0] eqn:Hr; [done|].
    apply skipSpace_cons_length in Hr.
    destruct (d =? 44)%N.
    { destruct (parseItems n after0) as [[items0 after1]|] eqn:Hp; [|done].
      intros [= <- <-]. apply IHI in Hp. lia. }
    destruct (d =? 93)%N; [|done]. intros [= <- <-]. lia.
  - intros s members after. rewrite parseMembers_S.
    destruct (skipSpace s) as [|q rest] eqn:Hs; [done|].
    apply skipSpace_cons_length in Hs.
    destruct (negb (q =? 34)%N); [done|].
    destruct (parseChars rest) as [[k rest1]|] eqn:Hk; [|done].
    apply parseChars_length in Hk.
    destruct (skipSpace rest1) as [|colon rest2] eqn:Hc; [done|].
    apply skipSpace_cons_length in Hc.
    destruct (negb (colon =? 58)%N); [done|].
    destruct (parseValue n rest2) as [[v rest3]|] eqn:Hv; [|done]. apply IHV in Hv.
    destruct (skipSpace rest3) as [|d after0] eqn:Hr; [done|].
    apply skipSpace_cons_length in Hr.
    destruct (d =? 44)%N.
    { destruct (parseMembers n after0) as [[members0 after1]|] eqn:Hp; [|done].
      intros [= <- <-]. apply IHM in Hp. lia. }
    destruct (d =? 125)%N; [|done]. intros [= <- <-]. lia.
Qed.

(** Beyond twice the length of the text, one more unit of fuel changes
    nothing. *)
Lemma fuel_step n :
  (∀ s, 2 * length s < n → parseValue (S n) s = parseValue n s) ∧
  (∀ s, 2 * length s + 1 < n → parseItems (S n) s = parseItems n s) ∧
  (∀ s, 2 * length s + 1 < n → parseMembers (S n) s = parseMembers n s).
Proof.
  induction n as [|n (IHV & IHI & IHM)]; [split; [|split]; intros; lia|].
  destruct (parse_consumes n) as (HcV & _ & _).
  split; [|split].
  - intros s Hn. rewrite (parseValue_S (S n)), (parseValue_S n).
    destruct (skipSpace s) as [|c rest] eqn:Hs; [done|].
    apply skipSpace_cons_length in Hs.
    by rewrite IHI, IHM by lia.
  - intros s Hn. rewrite (parseItems_S (S n)), (parseItems_S n).
    rewrite IHV by lia.
    destruct (parseValue n s) as [[v rest]|] eqn:Hv; [|done]. apply HcV in Hv.
    destruct (skipSpace rest) as [|d after] eqn:Hr; [done|].
    apply skipSpace_cons_length in Hr.
    by rewrite IHI by lia.
  - intros s Hn. rewrite (parseMembers_S (S n)), (parseMembers_S n).
    destruct (skipSpace s) as [|q rest] eqn:Hs; [done|].
    apply skipSpace_cons_length in Hs.
    destruct (negb (q =? 34)%N); [done|].
    destruct (parseChars rest) as [[k rest1]|] eqn:Hk; [|done].
    apply parseChars_length in Hk.
    destruct (skipSpace rest1) as [|colon rest2] eqn:Hc; [done|].
    apply skipSpace_cons_length in Hc.
    destruct (negb (colon =? 58)%N); [done|].
    rewrite IHV by lia.
    destruct (parseValue n rest2) as [[v rest3]|] eqn:Hv; [|done]. apply HcV in Hv.
    destruct (skipSpace rest3) as [|d after] eqn:Hr; [done|].
    apply skipSpace_cons_length in Hr.
    by rewrite IHM by lia.
Qed.

(** The fuel of [parse] never runs out: more fuel gives the same result. *)
Theorem parse_fuel_enough text n :
  2 * length text + 2 ≤ n →
  parseValue n text = parseValue (2 * length text + 2) text.
Proof.
  remember (2 * length text + 2) as m eqn:Hm. intros Hn.
  replace n with ((n - m) + m) by lia.
  induction (n - m) as [|k IH]; [done|].
  rewrite <- IH. apply (fuel_step (k + m)). lia.
Qed.

End Fuel.

(** ** Persistence *)

Section Persistence.

Implicit Types (store : localStorage.t) (S : list Session.t).

Lemma messageValue_plain m : JSON.plain (messageValue m) = true.
Proof. unfold messageValue. by destruct (Message.error m). Qed.

Lemma forallb_fmap_true {A B} (f : B → bool) (g : A → B) (xs : list A) :
  (∀ x, f (g x) = true) → forallb f (g <$> xs) = true.
Proof.
  intros H. induction xs as [|x xs IH]; [done|].
  rewrite fmap_cons. simpl. by rewrite H.
Qed.

Lemma sessionValue_plain s : JSON.plain (sessionValue s) = true.
Proof.
  unfold sessionValue.
  change (JSON.plain (JSON.Obj ?ms))
    with (bool_decide (NoDup (ms.*1))
          && forallb (λ kv, match kv with (_, v') => JSON.plain v' end) ms).
  apply andb_true_iff. split; [reflexivity|].
  simpl. rewrite andb_true_r.
  apply forallb_fmap_true, messageValue_plain.
Qed.

Lemma sessions_plain S : JSON.plain (JSON.Arr (sessionValue <$> S)) = true.
Proof. simpl. apply forallb_fmap_true, sessionValue_plain. Qed.

Lemma parse_sessions S :
  JSON.parse (JSON.stringify (JSON.Arr (sessionValue <$> S)))
  = Some (JSON.Arr (sessionValue <$> S)).
Proof. apply parse_stringify, sessions_plain. Qed.

Lemma roleName_inj a b : roleName a = roleName b → a = b.
Proof. by destruct a, b. Qed.

Lemma messageValue_inj a b : messageValue a = messageValue b → a = b.
Proof.
  destruct a as [i1 r1 c1 t1 e1], b as [i2 r2 c2 t2 e2]. unfold messageValue. simpl.
  intros H. injection H as -> Hr -> -> He. apply roleName_inj in Hr as ->.
  by destruct e1, e2.
Qed.

Lemma fmap_inj_list {A B} (f : A → B) (xs ys : list A) :
  (∀ x y, f x = f y → x = y) → f <$> xs = f <$> ys → xs = ys.
Proof.
  intros Hf. revert ys. induction xs as [|x xs IH]; intros [|y ys] H;
    simplify_eq/=; try done. f_equal; auto.
Qed.

Lemma sessionValue_inj a b : sessionValue a = sessionValue b → a = b.
Proof.
  destruct a as [i1 n1 t1 m1], b as [i2 n2 t2 m2]. unfold sessionValue. simpl.
  intros H. injection H as -> -> -> Hm.
  by apply (fmap_inj_list _ _ _ messageValue_inj) in Hm as ->.
Qed.

Lemma loadSessions_stored items quota raw :
  items !! MockStorage.key = Some raw →
  MockStorage.loadSessions (localStorage.Store items quota)
  = Normal (match JSON.parse raw with
            | Some parsed => MockStorage.arrayOrEmpty parsed
            | None => []
            end).
Proof.
  intros Hraw. unfold MockStorage.loadSessions, localStorage.getItem.
  rewrite Hraw. simpl. destruct raw as [|c raw]; [reflexivity|]. simpl.
  unfold MockStorage.JSON_parse. by destruct (JSON.parse (c :: raw)).
Qed.

(** C5: [loadSessions] returns for every store, and what it returns is
    the empty sequence when the storage cannot be read, when the key is
    absent, when the text under the key is not JSON (the text
    [not json] is not) and when it is JSON for something that is not an
    array; an array is returned as it is. *)
Theorem loadSessions_never_throws :
  (∀ store, ∃ result, MockStorage.loadSessions store = Normal result) ∧
  MockStorage.loadSessions localStorage.Unavailable = Normal [] ∧
  (∀ items quota,
     items !! MockStorage.key = None →
     MockStorage.loadSessions (localStorage.Store items quota) = Normal []) ∧
  (∀ items quota raw,
     items !! MockStorage.key = Some raw → JSON.parse raw = None →
     MockStorage.loadSessions (localStorage.Store items quota) = Normal []) ∧
  (∀ items quota raw parsed,
     items !! MockStorage.key = Some raw → JSON.parse raw = Some parsed →
     (∀ elements, parsed ≠ JSON.Arr elements) →
     MockStorage.loadSessions (localStorage.Store items quota) = Normal []) ∧
  (∀ items quota raw elements,
     items !! MockStorage.key = Some raw →
     JSON.parse raw = Some (JSON.Arr elements) →
     MockStorage.loadSessions (localStorage.Store items quota) = Normal elements) ∧
  (∀ items quota,
     items !! MockStorage.key = Some (js "not json") →
     MockStorage.loadSessions (localStorage.Store items quota) = Normal []).
Proof.
  split; [|split; [reflexivity|split; [|split; [|split; [|split]]]]].
  - intros [|items quota]; [by eexists|].
    destruct (items !! MockStorage.key) as [raw|] eqn:Hraw.
    + rewrite (loadSessions_stored _ _ _ Hraw). by eexists.
    + unfold MockStorage.loadSessions, localStorage.getItem. rewrite Hraw.
      by eexists.
  - intros items quota Hraw.
    unfold MockStorage.loadSessions, localStorage.getItem. by rewrite Hraw.
  - intros items quota raw Hraw Hparse.
    by rewrite (loadSessions_stored _ _ _ Hraw), Hparse.
  - intros items quota raw parsed Hraw Hparse Hnot.
    rewrite (loadSessions_stored _ _ _ Hraw), Hparse.
    destruct parsed; try reflexivity. by destruct (Hnot items0).
  - intros items quota raw elements Hraw Hparse.
    by rewrite (loadSessions_stored _ _ _ Hraw), Hparse.
  - intros items quota Hraw.
    by rewrite (loadSessions_stored _ _ _ Hraw).
Qed.

Lemma loadSessions_never_throws_witness :
  let store := localStorage.Store {[ MockStorage.key := js "not json" ]} 4096 in
  MockStorage.loadSessions store = Normal [].
Proof.
  destruct loadSessions_never_throws as (_ & _ & _ & _ & _ & _ & H).
  apply H. apply lookup_singleton_eq.
Defined.

(** C4, as the code has it: when the store takes the write (the storage
    is available and the text fits its quota), [loadSessions] after
    [saveSessions S] returns [S], value for value. *)
Theorem save_then_load S store :
  (localStorage.setItem MockStorage.key
     (JSON.stringify (JSON.Arr (sessionValue <$> S))) store).1 = Normal tt →
  let store' := (MockStorage.saveSessions (sessionValue <$> S) store).2 in
  MockStorage.loadSessions store' = Normal (sessionValue <$> S) ∧
  (∀ S', sessionValue <$> S' = sessionValue <$> S → S' = S).
Proof.
  intros Hset store'. split;
    [|intros S' HS'; by apply (fmap_inj_list _ _ _ sessionValue_inj) in HS'].
  subst store'. unfold MockStorage.saveSessions.
  destruct store as [|items quota]; [done|]. unfold localStorage.setItem in *.
  destruct (localStorage.used _ <=? quota); [|done]. simpl.
  rewrite (loadSessions_stored _ _ (JSON.stringify (JSON.Arr (sessionValue <$> S))))
    by apply lookup_insert_eq.
  by rewrite parse_sessions.
Qed.

Lemma save_then_load_witness :
  let S := [Session.mk (js "s1") (js "B-trees") (js "2024-01-01T00:00:00.000Z")
              [Message.mk (js "m_1") Message.user (js "What is a B-tree?")
                          (js "2024-01-01T00:00:01.000Z") false;
               Message.mk (js "m_2_err") Message.assistant (js "Error: offline")
                          (js "2024-01-01T00:00:02.000Z") true]] in
  let store := localStorage.Store ∅ 4096 in
  MockStorage.loadSessions (MockStorage.saveSessions (sessionValue <$> S) store).2
  = Normal (sessionValue <$> S).
Proof.
  intros S store.
  apply (save_then_load S store). vm_compute. reflexivity.
Defined.

(** C4, as stated, fails: a store that is full refuses the write without
    a word, and [loadSessions] returns what was there before. *)
Lemma save_then_load_full_store_counterexample :
  ¬ (∀ S store,
       MockStorage.loadSessions (MockStorage.saveSessions (sessionValue <$> S) store).2
       = Normal (sessionValue <$> S)).
Proof.
  intros H.
  specialize (H [Session.mk (js "s1") (js "New Session") (js "t") []]
                (localStorage.Store ∅ 16)).
  vm_compute in H. discriminate.
Qed.

End Persistence.

(** ** A send, whatever happens while it waits *)

Section SendInFlight.

Implicit Types (st mid : State) (s active : Session.t).

(** The whole of a send that passes the guard: the user message is added,
    the events of the wait move the state, and the end of the send maps
    the sessions of that moment. *)
Lemma handleSend_settles st active t1 t2 env settled :
  trim (question st) ≠ [] →
  activeSession st = Some active →
  handleSend st t1 t2 env settled st
  = (settledOutcome t2 settled,
     let mid := env (sendStarted st t1) in
     mkState (map (settledSession active (settledTitle st active settled)
                                  (settledMessages t2 settled))
                  (sessions mid))
             (activeSessionId mid) (question mid) false (authUser mid) (search mid)).
Proof.
  intros Hq Hact. unfold handleSend.
  apply truthy_true in Hq. rewrite Hq, Hact.
  destruct (activeSession_Some _ _ Hact) as [_ Hid].
  unfold mbind, M_bind, tryFinally, tryCatch, await, completes,
    updateActiveSessionMessages.
  simpl. fold (sendStarted st t1). generalize (env (sendStarted st t1)). intros mid.
  assert (Hmap : ∀ (f g : Session.t → Session.t) l,
            (∀ s, f s = g s) → map f l = map g l)
    by (intros f g l Hfg; by apply map_ext).
  assert (Hnone : sessions mid
                  = map (settledSession active None []) (sessions mid)).
  { rewrite <- (map_id (sessions mid)) at 1. apply Hmap. intros s.
    unfold settledSession. case_bool_decide; [|done]. simpl.
    rewrite app_nil_r. by destruct s. }
  destruct settled as [resp|e]; simpl.
  - unfold settledTitle.
    destruct (length (Session.messages active) =? 0); simpl;
      f_equal; f_equal; rewrite ?map_map; apply Hmap; intros s;
      unfold settledSession; rewrite (isActive_id st s active Hid);
      destruct (decide (Session.id s = Session.id active)) as [Hc|Hc];
      rewrite ?(bool_decide_eq_true_2 _ Hc), ?(bool_decide_eq_false_2 _ Hc); simpl;
      rewrite ?(bool_decide_eq_true_2 _ Hc), ?(bool_decide_eq_false_2 _ Hc); done.
  - destruct (errorMessage t2 e) as [m|e']; simpl.
    + f_equal. f_equal. apply Hmap. intros s.
      unfold settledSession. rewrite (isActive_id st s active Hid).
      destruct (decide (Session.id s = Session.id active)) as [Hc|Hc];
        rewrite ?(bool_decide_eq_true_2 _ Hc), ?(bool_decide_eq_false_2 _ Hc); done.
    + by rewrite <- Hnone.
Qed.

(** The two steps of a send on the sessions, when the wait leaves them alone. *)
Lemma sendStarted_then_settled st active t1 ms title s :
  activeSessionId st = Some (Session.id active) →
  settledSession active title ms
    (if negb (isActive st s) then s
     else Session.withMessages s (Session.messages s ++ [userMessage st t1]))
  = if bool_decide (Session.id s = Session.id active)
    then Session.mk (Session.id s) (default (Session.title s) title)
                    (Session.createdAt s)
                    (Session.messages s ++ userMessage st t1 :: ms)
    else s.
Proof.
  intros Hid. unfold settledSession. rewrite (isActive_id st s active Hid).
  destruct (decide (Session.id s = Session.id active)) as [Hc|Hc];
    rewrite ?(bool_decide_eq_true_2 _ Hc), ?(bool_decide_eq_false_2 _ Hc); simpl;
    rewrite ?(bool_decide_eq_true_2 _ Hc), ?(bool_decide_eq_false_2 _ Hc); [|done].
  by rewrite <- app_assoc.
Qed.

Lemma send_sessions_kept st active t1 t2 env settled :
  (∀ x, sessions (env x) = sessions x) →
  trim (question st) ≠ [] →
  activeSession st = Some active →
  sessions (dispatch (λ r, handleSend r t1 t2 env settled) st)
  = map (λ s, if bool_decide (Session.id s = Session.id active)
              then Session.mk (Session.id s)
                     (default (Session.title s) (settledTitle st active settled))
                     (Session.createdAt s)
                     (Session.messages s
                        ++ userMessage st t1 :: settledMessages t2 settled)
              else s)
        (sessions st).
Proof.
  intros Henv Hq Hact. unfold dispatch.
  rewrite (handleSend_settles st active t1 t2 env settled Hq Hact). simpl.
  destruct (activeSession_Some _ _ Hact) as [_ Hid].
  rewrite Henv. simpl. rewrite map_map. apply map_ext. intros s.
  by apply sendStarted_then_settled.
Qed.

(** The active session after a send during which the sessions and the
    pointer are left alone: the user message, then what the settled Query
    Service adds. *)
Lemma send_active_session st active t1 t2 env settled :
  keepsSessions env →
  trim (question st) ≠ [] →
  activeSession st = Some active →
  activeSession (dispatch (λ r, handleSend r t1 t2 env settled) st)
  = Some (Session.mk (Session.id active)
            (default (Session.title active) (settledTitle st active settled))
            (Session.createdAt active)
            (Session.messages active
               ++ userMessage st t1 :: settledMessages t2 settled)).
Proof.
  intros Henv Hq Hact.
  rewrite (activeSession_map st _
             (λ s, if bool_decide (Session.id s = Session.id active)
                   then Session.mk (Session.id s)
                          (default (Session.title s) (settledTitle st active settled))
                          (Session.createdAt s)
                          (Session.messages s
                             ++ userMessage st t1 :: settledMessages t2 settled)
                   else s) active); [| | | |exact Hact].
  - simpl. by rewrite bool_decide_eq_true_2.
  - intros s. by case_bool_decide.
  - unfold dispatch. rewrite (handleSend_settles st active t1 t2 env settled Hq Hact).
    simpl. by destruct (Henv (sendStarted st t1)) as [_ ->].
  - apply (send_sessions_kept st active t1 t2 env settled); [|done|done].
    intros x. by destruct (Henv x).
Qed.

(** X1: a send changes the session that sends and nothing else: the
    collection keeps its length and its ids, every session with another id
    stays as it is at its place, the pointer, the user and the search stay,
    the question box is emptied and [isSending] is false at the end. *)
Theorem send_touches_only_its_session st active t1 t2 settled :
  trim (question st) ≠ [] →
  activeSession st = Some active →
  let st' := dispatch (λ r, handleSend r t1 t2 id settled) st in
  length (sessions st') = length (sessions st) ∧
  ids st' = ids st ∧
  (∀ i s, sessions st !! i = Some s →
          Session.id s ≠ Session.id active → sessions st' !! i = Some s) ∧
  activeSessionId st' = activeSessionId st ∧
  question st' = [] ∧
  isSending st' = false ∧
  authUser st' = authUser st ∧
  search st' = search st.
Proof.
  intros Hq Hact st'.
  assert (Hs := send_sessions_kept st active t1 t2 id settled (λ _, eq_refl) Hq Hact).
  fold st' in Hs.
  assert (Hrest : activeSessionId st' = activeSessionId st ∧ question st' = [] ∧
                  isSending st' = false ∧ authUser st' = authUser st ∧
                  search st' = search st).
  { subst st'. unfold dispatch.
    by rewrite (handleSend_settles st active t1 t2 id settled Hq Hact). }
  split; [by rewrite Hs, length_map|]. split; [|split; [|exact Hrest]].
  - unfold ids. rewrite Hs. change (map ?f ?l) with (f <$> l).
    rewrite <- list_fmap_compose. apply list_fmap_ext. intros _ s _. simpl.
    by case_bool_decide.
  - intros i s Hi Hne. rewrite Hs. change (map ?f ?l) with (f <$> l).
    rewrite list_lookup_fmap, Hi. simpl. by rewrite (bool_decide_eq_false_2 _ Hne).
Qed.

Lemma send_touches_only_its_session_witness :
  let asked := Session.mk (js "s1") (js "New Session") (js "t") [] in
  let other := Session.mk (js "s2") (js "Other") (js "t")
                 [Message.mk (js "m_0") Message.user (js "old") (js "t") false] in
  let st := mkState [asked; other] (Some (js "s1")) (js "What is a B-tree?")
                    false None (js "tree") in
  let st' := dispatch (λ r, handleSend r (mkTick 1 (js "t1")) (mkTick 2 (js "t2")) id
                              (Throw undefined)) st in
  sessions st' !! 1 = Some other ∧ question st' = [] ∧ search st' = js "tree".
Proof.
  intros asked other st st'.
  destruct (send_touches_only_its_session st asked (mkTick 1 (js "t1"))
              (mkTick 2 (js "t2")) (Throw undefined))
    as (_ & _ & Hother & _ & Hq & _ & _ & Hsearch).
  - vm_compute. discriminate.
  - reflexivity.
  - split; [|split; [exact Hq | exact Hsearch]].
    apply Hother; [reflexivity | vm_compute; discriminate].
Defined.

(** X2: once a session has messages, a send that succeeds adds its two
    messages after them and leaves the title as it is. *)
Theorem later_send_keeps_title st active t1 t2 env resp :
  keepsSessions env →
  trim (question st) ≠ [] →
  activeSession st = Some active →
  Session.messages active ≠ [] →
  let st' := dispatch (λ r, handleSend r t1 t2 env (Normal resp)) st in
  ∃ s', activeSession st' = Some s' ∧
        Session.title s' = Session.title active ∧
        Session.messages s'
        = Session.messages active ++ [userMessage st t1; assistantMessage t2 resp].
Proof.
  intros Henv Hq Hact Hne st'.
  destruct (handleSend_resolved st active t1 t2 env resp Henv Hq Hact)
    as (_ & _ & _ & Hs).
  eexists. split; [exact Hs|]. simpl.
  destruct (Session.messages active); [done|]. done.
Qed.

Lemma later_send_keeps_title_witness :
  let active := Session.mk (js "s1") (js "My notes") (js "t")
                  [Message.mk (js "m_0") Message.user (js "old") (js "t") false] in
  let st := mkState [active] (Some (js "s1")) (js "And a trie?") false None [] in
  let st' := dispatch (λ r, handleSend r (mkTick 1 (js "t1")) (mkTick 2 (js "t2")) id
                              (Normal (mkResponse (js "answer")))) st in
  ∃ s', activeSession st' = Some s' ∧
        Session.title s' = js "My notes" ∧
        Session.messages s'
        = Session.messages active
          ++ [userMessage st (mkTick 1 (js "t1"));
              assistantMessage (mkTick 2 (js "t2")) (mkResponse (js "answer"))].
Proof.
  intros active st st'.
  apply (later_send_keeps_title st active (mkTick 1 (js "t1")) (mkTick 2 (js "t2"))
           id (mkResponse (js "answer"))).
  - apply keepsSessions_id.
  - vm_compute. discriminate.
  - reflexivity.
  - discriminate.
Defined.

Lemma filter_map_removed (f : Session.t → Session.t) a (l : list Session.t) :
  (∀ s, Session.id (f s) = Session.id s) →
  (∀ s, Session.id s ≠ a → f s = s) →
  filter (λ s, Session.id s ≠ a) (map f l) = filter (λ s, Session.id s ≠ a) l.
Proof.
  intros Hid Hf. induction l as [|s l IH]; [done|].
  rewrite map_cons, !filter_cons, Hid.
  destruct (decide (Session.id s ≠ a)) as [Hne|Heq]; [|done].
  by rewrite IH, (Hf s Hne).
Qed.

Lemma map_untouched (f : Session.t → Session.t) (l : list Session.t) :
  (∀ s, s ∈ l → f s = s) → map f l = l.
Proof.
  induction l as [|s l IH]; intros Hf; [done|]. simpl.
  rewrite Hf by left. f_equal. apply IH. intros x Hx. apply Hf. by right.
Qed.

(** X3: when the session is deleted while its question waits for the
    answer, the answer is dropped: at the end the collection is the one the
    deletion left, no session has the id again, and [isSending] is false. *)
Theorem answer_for_deleted_session_is_dropped st active t1 t2 settled :
  trim (question st) ≠ [] →
  activeSession st = Some active →
  let st' := dispatch (λ r, handleSend r t1 t2 (dispatch handleDeleteClick) settled) st in
  sessions st' = filter (λ s, Session.id s ≠ Session.id active) (sessions st) ∧
  (∀ s, s ∈ sessions st' → Session.id s ≠ Session.id active) ∧
  isSending st' = false.
Proof.
  intros Hq Hact st'.
  destruct (activeSession_Some _ _ Hact) as [_ Hid].
  set (u := λ s, if negb (isActive st s) then s
                 else Session.withMessages s (Session.messages s ++ [userMessage st t1])).
  assert (Hstarted : activeSession (sendStarted st t1) = Some (u active)).
  { apply (activeSession_map st _ u active); try done.
    intros s. unfold u. by destruct (negb (isActive st s)). }
  assert (Hdel : sessions (dispatch handleDeleteClick (sendStarted st t1))
                 = filter (λ s, Session.id s ≠ Session.id active) (sessions st)).
  { unfold dispatch, handleDeleteClick. rewrite Hstarted.
    assert (Hu : Session.id (u active) = Session.id active)
      by (unfold u; by destruct (negb (isActive st active))).
    rewrite Hu.
    change (sessions (handleDeleteSession (sendStarted st t1) (Session.id active)
                        (sendStarted st t1)).2)
      with (sessions (dispatch (λ r, handleDeleteSession r (Session.id active))
                        (sendStarted st t1))).
    rewrite sessions_delete. simpl. fold u. apply filter_map_removed.
    - intros s. unfold u. by destruct (negb (isActive st s)).
    - intros s Hne. unfold u. rewrite (isActive_id st s active Hid).
      by rewrite (bool_decide_eq_false_2 _ Hne). }
  assert (Hgone : ∀ s, s ∈ filter (λ s, Session.id s ≠ Session.id active) (sessions st) →
                       Session.id s ≠ Session.id active)
    by (intros s [Hne _]%list_elem_of_filter; exact Hne).
  assert (Hs : sessions st'
               = filter (λ s, Session.id s ≠ Session.id active) (sessions st)).
  { subst st'. unfold dispatch at 1.
    rewrite (handleSend_settles st active t1 t2 _ settled Hq Hact). simpl.
    rewrite Hdel. apply map_untouched. intros s Hs. unfold settledSession.
    by rewrite (bool_decide_eq_false_2 _ (Hgone s Hs)). }
  split; [exact Hs|]. split; [by rewrite Hs|].
  subst st'. unfold dispatch at 1.
  by rewrite (handleSend_settles st active t1 t2 _ settled Hq Hact).
Qed.

Lemma answer_for_deleted_session_is_dropped_witness :
  let asked := Session.mk (js "s1") (js "New Session") (js "t") [] in
  let other := Session.mk (js "s2") (js "Other") (js "t") [] in
  let st := mkState [asked; other] (Some (js "s1")) (js "What is a B-tree?")
                    false None [] in
  let st' := dispatch (λ r, handleSend r (mkTick 1 (js "t1")) (mkTick 2 (js "t2"))
                              (dispatch handleDeleteClick)
                              (Normal (mkResponse (js "answer")))) st in
  sessions st' = [other] ∧ isSending st' = false.
Proof.
  intros asked other st st'.
  destruct (answer_for_deleted_session_is_dropped st asked (mkTick 1 (js "t1"))
              (mkTick 2 (js "t2")) (Normal (mkResponse (js "answer"))))
    as (Hs & _ & Hsend).
  - vm_compute. discriminate.
  - reflexivity.
  - split; [|exact Hsend]. fold st' in Hs. rewrite Hs. reflexivity.
Defined.

(** X4: when another session is opened while a question waits for the
    answer, the answer goes to the session that sent the question: the
    session now shown is as it was, and the one that sent has, at the end
    of its messages, the question and then what the settled Query Service
    adds: the answer, or the error message, or nothing when the rejection
    is one off which [e.message] cannot be read. *)
Theorem answer_goes_to_the_session_that_asked st active other t1 t2 settled :
  trim (question st) ≠ [] →
  activeSession st = Some active →
  Session.id other ≠ Session.id active →
  let st' := dispatch (λ r, handleSend r t1 t2
                              (dispatch (λ r', handleSelectSession r' other)) settled) st in
  activeSessionId st' = Some (Session.id other) ∧
  activeSession st'
  = find (λ s, bool_decide (Session.id s = Session.id other)) (sessions st) ∧
  ∃ s', find (λ s, bool_decide (Session.id s = Session.id active)) (sessions st') = Some s' ∧
        Session.messages s'
        = Session.messages active ++ userMessage st t1 :: settledMessages t2 settled.
Proof.
  intros Hq Hact Hne st'.
  assert (Hs := send_sessions_kept st active t1 t2
                  (dispatch (λ r', handleSelectSession r' other)) settled
                  (λ _, eq_refl) Hq Hact).
  fold st' in Hs.
  assert (Hp : activeSessionId st' = Some (Session.id other)).
  { subst st'. unfold dispatch at 1.
    by rewrite (handleSend_settles st active t1 t2 _ settled Hq Hact). }
  destruct (activeSession_Some _ _ Hact) as [_ Hid].
  split; [exact Hp|]. split.
  - unfold activeSession. rewrite Hs, find_map_stable.
    + rewrite (find_pointwise (isActive st')
                 (λ s, bool_decide (Session.id s = Session.id other))).
      * destruct (find _ (sessions st)) as [x|] eqn:Hf; [|done]. simpl.
        apply find_some in Hf as [_ Hx%bool_decide_eq_true].
        rewrite bool_decide_eq_false_2; [done | congruence].
      * intros s. unfold isActive. rewrite Hp. apply bool_decide_ext.
        split; congruence.
    + intros s. unfold isActive.
      destruct (decide (Session.id s = Session.id active)) as [Hc|Hc];
        by rewrite ?(bool_decide_eq_true_2 _ Hc), ?(bool_decide_eq_false_2 _ Hc).
  - rewrite Hs, find_map_stable.
    + assert (Hfind : find (λ s, bool_decide (Session.id s = Session.id active))
                        (sessions st) = Some active).
      { rewrite <- Hact. unfold activeSession. apply find_pointwise. intros s.
        symmetry. by apply isActive_id. }
      rewrite Hfind. simpl. rewrite bool_decide_eq_true_2 by done.
      by eexists.
    + intros s.
      destruct (decide (Session.id s = Session.id active)) as [Hc|Hc];
        rewrite ?(bool_decide_eq_true_2 _ Hc), ?(bool_decide_eq_false_2 _ Hc);
        simpl; by rewrite ?(bool_decide_eq_true_2 _ Hc), ?(bool_decide_eq_false_2 _ Hc).
Qed.

Lemma answer_goes_to_the_session_that_asked_witness :
  let asked := Session.mk (js "s1") (js "New Session") (js "t") [] in
  let other := Session.mk (js "s2") (js "Other") (js "t") [] in
  let st := mkState [asked; other] (Some (js "s1")) (js "What is a B-tree?")
                    false None [] in
  let st' := dispatch (λ r, handleSend r (mkTick 1 (js "t1")) (mkTick 2 (js "t2"))
                              (dispatch (λ r', handleSelectSession r' other))
                              (Normal (mkResponse (js "answer")))) st in
  activeSession st' = Some other ∧
  Session.messages <$> sessions st' !! 0
  = Some [userMessage st (mkTick 1 (js "t1"));
          assistantMessage (mkTick 2 (js "t2")) (mkResponse (js "answer"))].
Proof.
  intros asked other st st'.
  destruct (answer_goes_to_the_session_that_asked st asked other (mkTick 1 (js "t1"))
              (mkTick 2 (js "t2")) (Normal (mkResponse (js "answer"))))
    as (_ & Hshown & _).
  - vm_compute. discriminate.
  - reflexivity.
  - vm_compute. discriminate.
  - split; [|reflexivity]. fold st' in Hshown. rewrite Hshown. reflexivity.
Defined.

End SendInFlight.

(** ** Creating, opening, deleting and renaming sessions *)

Section Collection.

Implicit Types (st : State) (s active : Session.t).

(** X5: the session that New Session creates is put first and is the
    active one, also when an older session carries the same id; it has the
    default title and no message, and the sessions that were there follow
    it unchanged. *)
Theorem new_session_is_active st t :
  let st' := dispatch (λ r, handleNewSession r t) st in
  ∃ new, activeSession st' = Some new ∧
         sessions st' = new :: sessions st ∧
         Session.id new = js "sess_" ++ number (now t) ∧
         Session.title new = js "New Session" ∧
         Session.createdAt new = iso t ∧
         Session.messages new = [].
Proof.
  exists (createNewSession t (js "New Session")). split; [|done].
  unfold activeSession, dispatch, handleNewSession. simpl.
  unfold isActive. simpl. by rewrite bool_decide_eq_true_2.
Qed.

Lemma filter_all_kept (P : Session.t → Prop) `{∀ x, Decision (P x)} (l : list Session.t) :
  (∀ s, s ∈ l → P s) → filter P l = l.
Proof.
  induction l as [|s l IH]; intros Hl; [done|].
  rewrite filter_cons, decide_True by (apply Hl; left).
  f_equal. apply IH. intros x Hx. apply Hl. by right.
Qed.

Lemma find_filter_kept (p : Session.t → bool) (P : Session.t → Prop)
    `{∀ x, Decision (P x)} (l : list Session.t) :
  (∀ s, p s = true → P s) → find p (filter P l) = find p l.
Proof.
  intros Hp. induction l as [|s l IH]; [done|].
  rewrite filter_cons. destruct (decide (P s)) as [HP|HP]; simpl.
  - by rewrite IH.
  - destruct (p s) eqn:Hps; [by destruct HP; apply Hp | exact IH].
Qed.

(** X6: [handleDeleteSession id] removes exactly the sessions whose id is
    [id] and keeps the others in their order.  When another session is
    active the pointer and the active session stay.  When no session has
    the id (and the pointer is not that id) nothing changes, and deleting
    a second time changes nothing more. *)
Theorem delete_removes_exactly st i :
  let st' := dispatch (λ r, handleDeleteSession r i) st in
  (∀ s, s ∈ sessions st' ↔ s ∈ sessions st ∧ Session.id s ≠ i) ∧
  sessions st' `sublist_of` sessions st ∧
  (activeSessionId st ≠ Some i →
   activeSessionId st' = activeSessionId st ∧ activeSession st' = activeSession st) ∧
  (activeSessionId st ≠ Some i → (∀ s, s ∈ sessions st → Session.id s ≠ i) → st' = st) ∧
  dispatch (λ r, handleDeleteSession r i) st' = st'.
Proof.
  intros st'.
  assert (Hs : sessions st' = filter (λ s, Session.id s ≠ i) (sessions st))
    by apply sessions_delete.
  assert (Hkeep : ∀ x, activeSessionId x ≠ Some i →
            dispatch (λ r, handleDeleteSession r i) x
            = mkState (filter (λ s, Session.id s ≠ i) (sessions x)) (activeSessionId x)
                      (question x) (isSending x) (authUser x) (search x)).
  { intros x Hx. unfold dispatch, handleDeleteSession.
    by rewrite (bool_decide_eq_false_2 _ Hx). }
  split; [|split; [|split; [|split]]].
  - intros s. rewrite Hs, list_elem_of_filter. tauto.
  - rewrite Hs. apply sublist_filter.
  - intros Hne. subst st'. rewrite (Hkeep st Hne). split; [done|].
    unfold activeSession. simpl.
    rewrite (find_pointwise _ (isActive st)) by done.
    apply find_filter_kept. intros s Hs'. unfold isActive in Hs'.
    apply bool_decide_eq_true in Hs'. congruence.
  - intros Hne Habsent. subst st'. rewrite (Hkeep st Hne).
    rewrite filter_all_kept by done. by destruct st.
  - assert (Hp : activeSessionId st' ≠ Some i).
    { subst st'. unfold dispatch, handleDeleteSession.
      destruct (bool_decide (activeSessionId st = Some i)) eqn:Hb; simpl.
      - destruct (find _ (sessions st)) as [s|] eqn:Hf; simpl; [|done].
        apply find_some in Hf as [_ Hsi%bool_decide_eq_true].
        destruct (truthy (Session.id s)); [|done]. congruence.
      - by apply bool_decide_eq_false in Hb. }
    rewrite (Hkeep st' Hp), Hs.
    rewrite filter_all_kept.
    + rewrite <- Hs. by destruct st'.
    + by intros s [Hne _]%list_elem_of_filter.
Qed.

Lemma delete_removes_exactly_witness :
  let a := Session.mk (js "a") (js "A") (js "t") [] in
  let b := Session.mk (js "b") (js "B") (js "t") [] in
  let c := Session.mk (js "c") (js "C") (js "t") [] in
  let st := mkState [a; b; c] (Some (js "c")) [] false None [] in
  let st' := dispatch (λ r, handleDeleteSession r (js "b")) st in
  sessions st' = [a; c] ∧ activeSession st' = Some c.
Proof.
  intros a b c st st'. split; [reflexivity|].
  destruct (delete_removes_exactly st (js "b")) as (_ & _ & Hkeep & _).
  destruct Hkeep as [_ Hactive]; [vm_compute; discriminate|].
  fold st' in Hactive. rewrite Hactive. reflexivity.
Defined.

Lemma filteredSessions_sublist st : filteredSessions st `sublist_of` sessions st.
Proof.
  unfold filteredSessions. destruct (negb (truthy _)); [done|].
  induction (sessions st) as [|s l IH]; simpl; [done|].
  destruct (matchesQuery _ s); [by apply sublist_skip | by apply sublist_cons].
Qed.

Lemma find_by_id_present (l : list Session.t) s :
  s ∈ l →
  ∃ s', find (λ x, bool_decide (Session.id x = Session.id s)) l = Some s' ∧
        s' ∈ l ∧ Session.id s' = Session.id s.
Proof.
  intros Hin.
  destruct (find (λ x, bool_decide (Session.id x = Session.id s)) l) as [s'|] eqn:Hf.
  - apply find_some in Hf as [Hin' Heq%bool_decide_eq_true].
    exists s'. by rewrite list_elem_of_In.
  - apply list_elem_of_In in Hin. eapply find_none in Hf; [|exact Hin].
    by apply bool_decide_eq_false in Hf.
Qed.

(** X7: a click on a session that the history shows makes a session with
    that id the active one, without touching the collection; when the ids
    are unique it is the session that was clicked. *)
Theorem open_listed_session st s :
  s ∈ filteredSessions st →
  let st' := dispatch (λ r, handleSelectSession r s) st in
  sessions st' = sessions st ∧
  (∃ s', activeSession st' = Some s' ∧ s' ∈ sessions st ∧
         Session.id s' = Session.id s) ∧
  (NoDup (ids st) → activeSession st' = Some s).
Proof.
  intros Hin st'.
  assert (Hs : s ∈ sessions st).
  { eapply elem_of_sublist; [exact Hin | apply filteredSessions_sublist]. }
  assert (Hact : activeSession st'
                 = find (λ x, bool_decide (Session.id x = Session.id s)) (sessions st)).
  { unfold activeSession. simpl. apply find_pointwise. intros x. unfold isActive. simpl.
    apply bool_decide_ext. split; congruence. }
  destruct (find_by_id_present _ _ Hs) as (s' & Hf & Hin' & Hid).
  split; [done|]. split.
  - exists s'. by rewrite Hact.
  - intros Hnd. rewrite Hact, Hf. f_equal.
    apply list_elem_of_lookup in Hin' as [i Hi].
    by eapply unique_id_same_session.
Qed.

Lemma open_listed_session_witness :
  let a := Session.mk (js "a") (js "Graphs") (js "t") [] in
  let b := Session.mk (js "b") (js "B-trees") (js "t") [] in
  let st := mkState [a; b] (Some (js "a")) [] false None (js "tree") in
  filteredSessions st = [b] ∧
  activeSession (dispatch (λ r, handleSelectSession r b) st) = Some b.
Proof.
  intros a b st. split; [reflexivity|].
  destruct (open_listed_session st b) as (_ & _ & Hunique).
  - vm_compute. left.
  - apply Hunique. vm_compute.
    repeat (constructor; [rewrite ?elem_of_cons, ?elem_of_nil; intuition discriminate|]).
    constructor.
Defined.

(** X8: a rename changes nothing when no session is active, when the prompt
    was cancelled, and when the title that was typed is empty or has only
    white space. *)
Theorem rename_noop st input :
  activeSession st = None ∨ input = None ∨ (∃ x, input = Some x ∧ blank x) →
  dispatch (λ r, handleRename r input) st = st.
Proof.
  unfold dispatch, handleRename. intros [Hn | [-> | (x & -> & Hb)]].
  - by rewrite Hn.
  - by destruct (activeSession st).
  - destruct (activeSession st); [|done].
    apply trim_blank in Hb. rewrite Hb. simpl. by rewrite andb_false_r.
Qed.

Lemma rename_noop_witness :
  let st := mkState [Session.mk (js "s1") (js "Kept") (js "t") []]
                    (Some (js "s1")) [] false None [] in
  dispatch (λ r, handleRename r (Some (js "   "))) st = st.
Proof.
  intros st. apply rename_noop. right. right. exists (js "   ").
  split; [reflexivity | repeat constructor].
Defined.

(** X9: a title given by hand before the first question does not last: the
    first send that succeeds sets the title from the question again. *)
Theorem first_send_overwrites_custom_title st active custom t1 t2 resp :
  activeSession st = Some active →
  Session.messages active = [] →
  trim custom ≠ [] →
  trim (question st) ≠ [] →
  let renamed := dispatch (λ r, handleRename r (Some custom)) st in
  let sent := dispatch (λ r, handleSend r t1 t2 id (Normal resp)) renamed in
  Session.title <$> activeSession renamed = Some (trim custom) ∧
  Session.title <$> activeSession sent = Some (truncateTitle (trim (question st)) 42).
Proof.
  intros Hact Hnil Hc Hq renamed sent.
  assert (Hr : activeSession renamed = Some (Session.withTitle active (trim custom))).
  { subst renamed. rewrite (sessions_rename st active custom Hact Hc).
    assert (H := activeSession_map st
              (mkState (map (λ s, if bool_decide (Session.id s = Session.id active)
                                  then Session.withTitle s (trim custom) else s)
                            (sessions st))
                       (activeSessionId st) (question st) (isSending st)
                       (authUser st) (search st))
              (λ s, if bool_decide (Session.id s = Session.id active)
                    then Session.withTitle s (trim custom) else s) active).
    rewrite H; try done.
    - by rewrite bool_decide_eq_true_2.
    - intros s. by case_bool_decide. }
  split; [by rewrite Hr|].
  assert (Hq' : trim (question renamed) ≠ []).
  { subst renamed. by rewrite (sessions_rename st active custom Hact Hc). }
  destruct (handleSend_resolved renamed _ t1 t2 id resp keepsSessions_id Hq' Hr)
    as (_ & _ & _ & Hs).
  subst sent. unfold dispatch at 1. rewrite Hs. simpl. rewrite Hnil. simpl.
  subst renamed. by rewrite (sessions_rename st active custom Hact Hc).
Qed.

Lemma first_send_overwrites_custom_title_witness :
  let st := mkState [Session.mk (js "s1") (js "New Session") (js "t") []]
                    (Some (js "s1")) (js "What is a B-tree?") false None [] in
  let renamed := dispatch (λ r, handleRename r (Some (js "Exam notes"))) st in
  let sent := dispatch (λ r, handleSend r (mkTick 1 (js "t1")) (mkTick 2 (js "t2")) id
                               (Normal (mkResponse (js "answer")))) renamed in
  Session.title <$> activeSession renamed = Some (js "Exam notes") ∧
  Session.title <$> activeSession sent = Some (js "What is a B-tree?").
Proof.
  intros st renamed sent.
  apply (first_send_overwrites_custom_title st
           (Session.mk (js "s1") (js "New Session") (js "t") []) (js "Exam notes")
           (mkTick 1 (js "t1")) (mkTick 2 (js "t2")) (mkResponse (js "answer"))).
  - reflexivity.
  - reflexivity.
  - vm_compute. discriminate.
  - vm_compute. discriminate.
Defined.

End Collection.

(** ** From the start of the application on *)

Section Lifetime.

Implicit Types (st : State) (s active : Session.t) (e : Event).

(** X10: when the application has started there is an active session,
    whatever was loaded.  When the first session that was loaded has a
    non-empty id, it is the active one and nothing is created; when nothing
    was loaded, one session is created. *)
Theorem started_has_active loaded auth t :
  let st := started loaded auth t in
  is_Some (activeSession st) ∧
  (∀ first rest, loaded = first :: rest → Session.id first ≠ [] →
                 st = initialState loaded auth ∧ activeSession st = Some first) ∧
  (loaded = [] → sessions st = [createNewSession t (js "New Session")]) ∧
  question st = [] ∧ isSending st = false ∧ authUser st = auth ∧ search st = [].
Proof.
  assert (Hfirst : ∀ first rest, loaded = first :: rest → Session.id first ≠ [] →
            activeSession (initialState loaded auth) = Some first).
  { intros first rest -> Hid.
    unfold activeSession, initialState, initialActiveSessionId. simpl.
    apply truthy_true in Hid. rewrite Hid. unfold isActive. simpl.
    by rewrite bool_decide_eq_true_2. }
  intros st. subst st. unfold started, dispatch, mountEffect.
  destruct (activeSession (initialState loaded auth)) as [a|] eqn:Hact; simpl.
  - split; [by rewrite Hact|]. split; [|split; [|done]].
    + intros first rest Hl Hid. split; [done|]. rewrite Hact. by eapply Hfirst.
    + intros ->. discriminate.
  - split; [|split; [|split; [|done]]].
    + unfold activeSession, isActive. simpl. by rewrite bool_decide_eq_true_2.
    + intros first rest Hl Hid. by specialize (Hfirst first rest Hl Hid).
    + by intros ->.
Qed.

Lemma started_has_active_witness :
  let first := Session.mk (js "sess_5") (js "Kept") (js "t") [] in
  let st := started [first] None (mkTick 9 (js "t9")) in
  activeSession st = Some first ∧ sessions st = [first].
Proof.
  intros first st.
  destruct (started_has_active [first] None (mkTick 9 (js "t9")))
    as (_ & Hfirst & _).
  destruct (Hfirst first [] eq_refl) as [Hst Hact]; [vm_compute; discriminate|].
  split; [exact Hact|]. fold st in Hst. by rewrite Hst.
Defined.

(** The sessions after an event: one more in front, or some removed, or
    each one continued. *)
Lemma react_sessions st e :
  (∃ t, e = ClickNewSession t ∧
        sessions (react st e) = createNewSession t (js "New Session") :: sessions st) ∨
  (∃ i, sessions (react st e) = filter (λ s, Session.id s ≠ i) (sessions st)) ∨
  (∃ f, (∀ s, Continues s (f s)) ∧ sessions (react st e) = map f (sessions st)).
Proof.
  assert (Hsame : ∀ st', sessions st' = sessions st →
            ∃ f, (∀ s, Continues s (f s)) ∧ sessions st' = map f (sessions st)).
  { intros st' ->. exists id. split; [by intros s|]. by rewrite map_id. }
  destruct e as [t| |i|input|t1 t2 settled|q|q|]; simpl.
  - left. by exists t.
  - unfold dispatch, handleDeleteClick.
    destruct (activeSession st) as [a|] eqn:Hact; [|right; right; by apply Hsame].
    right. left. exists (Session.id a).
    apply (sessions_delete st (Session.id a)).
  - right. right. apply Hsame. by destruct (filteredSessions st !! i).
  - right. right.
    destruct (activeSession st) as [a|] eqn:Hact;
      [|apply Hsame; unfold dispatch, handleRename; by rewrite Hact].
    destruct input as [x|];
      [|apply Hsame; unfold dispatch, handleRename; by rewrite Hact].
    destruct (decide (trim x = [])) as [Hx|Hx].
    + apply Hsame. unfold dispatch, handleRename. rewrite Hact, Hx. simpl.
      by rewrite andb_false_r.
    + rewrite (sessions_rename st a x Hact Hx). simpl. eexists. split; [|done].
      intros s. simpl. case_bool_decide; by repeat split.
  - right. right.
    destruct (decide (trim (question st) = [])) as [Hq|Hq].
    { apply Hsame. unfold dispatch. rewrite handleSend_blocked; [done | by left]. }
    destruct (activeSession st) as [a|] eqn:Hact.
    + rewrite (send_sessions_kept st a t1 t2 id settled (λ _, eq_refl) Hq Hact).
      eexists. split; [|done]. intros s. simpl.
      case_bool_decide; repeat split; simpl; try done.
      by apply prefix_app_r.
    + apply Hsame. unfold dispatch. rewrite handleSend_blocked; [done | by right].
  - right. right. by apply Hsame.
  - right. right. by apply Hsame.
  - right. right. apply Hsame. unfold dispatch, handleAuthToggle.
    by destruct (authUser st).
Qed.

Lemma Continues_refl a : Continues a a.
Proof. by repeat split. Qed.

Lemma Continues_trans a b c : Continues a b → Continues b c → Continues a c.
Proof.
  intros (H1 & H2 & H3) (H4 & H5 & H6). repeat split; try congruence.
  by etrans.
Qed.

(** X11: whatever the user does, a session keeps its id and its creation
    time, and its messages are only added to at the end: every session of
    the collection continues a session that was there before, or is one
    that New Session created in the meantime. *)
Theorem sessions_are_continued es st :
  ∀ s', s' ∈ sessions (runEvents es st) →
        (∃ s, s ∈ sessions st ∧ Continues s s') ∨
        (∃ t, t ∈ createdBy es ∧
              Session.id s' = js "sess_" ++ number (now t) ∧
              Session.createdAt s' = iso t).
Proof.
  revert st. induction es as [|e es IH]; intros st s' Hs'.
  { left. exists s'. split; [done | apply Continues_refl]. }
  change (runEvents (e :: es) st) with (runEvents es (react st e)) in Hs'.
  assert (Hlater : ∀ t, t ∈ createdBy es → t ∈ createdBy (e :: es)).
  { intros t Ht. destruct e; simpl; try done. by right. }
  destruct (IH _ _ Hs') as [(s1 & Hs1 & Hc1) | (t & Ht & Hidt)];
    [|right; exists t; split; [by apply Hlater | done]].
  destruct (react_sessions st e) as [(t & -> & Hr) | [(i & Hr) | (f & Hf & Hr)]];
    rewrite Hr in Hs1.
  - apply elem_of_cons in Hs1 as [-> | Hs1].
    + right. exists t. split; [left|]. destruct Hc1 as (Hi & Hc & _).
      by rewrite Hi, Hc.
    + left. by exists s1.
  - apply list_elem_of_filter in Hs1 as [_ Hs1]. left. by exists s1.
  - change (map f ?l) with (f <$> l) in Hs1.
    apply list_elem_of_fmap in Hs1 as (s0 & -> & Hs0).
    left. exists s0. split; [done|]. eapply Continues_trans; [apply Hf | done].
Qed.

Lemma sessions_are_continued_witness :
  let old := Session.mk (js "s1") (js "New Session") (js "t0") [] in
  let st := mkState [old] (Some (js "s1")) (js "What is a B-tree?") false None [] in
  let es := [Send (mkTick 1 (js "t1")) (mkTick 2 (js "t2"))
                  (Normal (mkResponse (js "answer")));
             ClickRename (Some (js "Trees"));
             ClickNewSession (mkTick 3 (js "t3"))] in
  Session.title <$> sessions (runEvents es st) = [js "New Session"; js "Trees"] ∧
  ∀ s', s' ∈ sessions (runEvents es st) →
        (∃ s, s ∈ sessions st ∧ Continues s s') ∨
        (∃ t, t ∈ createdBy es ∧
              Session.id s' = js "sess_" ++ number (now t) ∧
              Session.createdAt s' = iso t).
Proof.
  intros old st es. split; [reflexivity|].
  apply (sessions_are_continued es st).
Defined.

Lemma Consistent_same st st' :
  ids st' = ids st → activeSessionId st' = activeSessionId st →
  Consistent st → Consistent st'.
Proof.
  unfold Consistent, ids. intros Hids Hp [Hne Hptr]. split.
  - intros s Hs.
    assert (Hi : Session.id s ∈ Session.id <$> sessions st).
    { rewrite <- Hids. apply list_elem_of_fmap. by exists s. }
    apply list_elem_of_fmap in Hi as (s0 & -> & Hs0). by apply Hne.
  - rewrite Hp. destruct (activeSessionId st); [by rewrite Hids|].
    rewrite Hptr in Hids. by apply fmap_nil_inv in Hids.
Qed.

Lemma Continues_ids (f : Session.t → Session.t) (l : list Session.t) :
  (∀ s, Continues s (f s)) → Session.id <$> map f l = Session.id <$> l.
Proof.
  intros Hf. change (map f l) with (f <$> l). rewrite <- list_fmap_compose.
  apply list_fmap_ext. intros _ s _. simpl. by destruct (Hf s).
Qed.

Lemma find_none_filter_nil i (l : list Session.t) :
  find (λ s, bool_decide (Session.id s ≠ i)) l = None →
  filter (λ s, Session.id s ≠ i) l = [].
Proof.
  intros Hf. induction l as [|s l IH]; [done|]. simpl in Hf.
  rewrite filter_cons. destruct (decide (Session.id s ≠ i)) as [Hne|Heq].
  - by rewrite (bool_decide_eq_true_2 _ Hne) in Hf.
  - rewrite (bool_decide_eq_false_2 _ Heq) in Hf. by apply IH.
Qed.

Lemma Consistent_active st :
  Consistent st → sessions st ≠ [] → is_Some (activeSession st).
Proof.
  intros [_ Hptr] Hne. destruct (activeSessionId st) as [a|] eqn:Ha; [|done].
  apply list_elem_of_fmap in Hptr as (s & -> & Hs).
  destruct (activeSession st) as [x|] eqn:Hact; [done|].
  apply list_elem_of_In in Hs. eapply find_none in Hact; [|exact Hs].
  unfold isActive in Hact. rewrite Ha in Hact.
  by rewrite bool_decide_eq_true_2 in Hact.
Qed.

Lemma rename_ids st input :
  ids (dispatch (λ r, handleRename r input) st) = ids st ∧
  activeSessionId (dispatch (λ r, handleRename r input) st) = activeSessionId st.
Proof.
  destruct (activeSession st) as [a|] eqn:Hact;
    [|unfold dispatch, handleRename; by rewrite Hact].
  destruct input as [x|]; [|unfold dispatch, handleRename; by rewrite Hact].
  destruct (decide (trim x = [])) as [Hx|Hx].
  - unfold dispatch, handleRename. rewrite Hact, Hx. simpl. by rewrite andb_false_r.
  - rewrite (sessions_rename st a x Hact Hx). split; [|done].
    unfold ids. simpl. apply Continues_ids. intros s.
    case_bool_decide; by repeat split.
Qed.

Lemma send_ids st t1 t2 settled :
  ids (dispatch (λ r, handleSend r t1 t2 id settled) st) = ids st ∧
  activeSessionId (dispatch (λ r, handleSend r t1 t2 id settled) st) = activeSessionId st.
Proof.
  destruct (decide (trim (question st) = [])) as [Hq|Hq].
  { unfold dispatch. rewrite handleSend_blocked; [done | by left]. }
  destruct (activeSession st) as [a|] eqn:Hact.
  - split.
    + unfold ids. rewrite (send_sessions_kept st a t1 t2 id settled (λ _, eq_refl) Hq Hact).
      apply Continues_ids. intros s.
      case_bool_decide; repeat split; simpl; try done. by apply prefix_app_r.
    + unfold dispatch. by rewrite (handleSend_settles st a t1 t2 id settled Hq Hact).
  - unfold dispatch. rewrite handleSend_blocked; [done | by right].
Qed.

Lemma react_Consistent st e : Consistent st → Consistent (react st e).
Proof.
  intros Hc. pose proof Hc as [Hne Hptr].
  destruct e as [t| |i|input|t1 t2 settled|q|q|]; simpl.
  - split.
    + intros s [-> | Hs]%elem_of_cons; [done | by apply Hne].
    + simpl. left.
  - unfold dispatch, handleDeleteClick.
    destruct (activeSession st) as [a|] eqn:Hact; [|done].
    destruct (activeSession_Some _ _ Hact) as [_ Hid].
    unfold handleDeleteSession. rewrite (bool_decide_eq_true_2 _ Hid). simpl.
    split.
    + by intros s [_ Hs]%list_elem_of_filter; apply Hne.
    + destruct (find _ (sessions st)) as [s|] eqn:Hf; simpl.
      * apply find_some in Hf as [Hin Hsi%bool_decide_eq_true].
        apply list_elem_of_In in Hin.
        assert (Ht : truthy (Session.id s) = true) by (apply truthy_true; by apply Hne).
        rewrite Ht. unfold ids. simpl. apply list_elem_of_fmap. exists s.
        split; [done|]. by apply list_elem_of_filter.
      * by apply find_none_filter_nil.
  - destruct (filteredSessions st !! i) as [s|] eqn:Hi; [|done].
    split; [done|]. simpl. unfold ids. simpl. apply list_elem_of_fmap. exists s.
    split; [done|]. eapply elem_of_sublist; [|apply filteredSessions_sublist].
    by eapply list_elem_of_lookup_2.
  - destruct (rename_ids st input). by eapply Consistent_same.
  - destruct (send_ids st t1 t2 settled). by eapply Consistent_same.
  - done.
  - done.
  - unfold dispatch, handleAuthToggle. by destruct (authUser st).
Qed.

Lemma started_Consistent loaded auth t :
  (∀ s, s ∈ loaded → Session.id s ≠ []) → Consistent (started loaded auth t).
Proof.
  intros Hne. unfold started, dispatch, mountEffect.
  destruct (activeSession (initialState loaded auth)) as [a|] eqn:Hact; simpl.
  - split; [done|]. simpl. unfold initialActiveSessionId.
    destruct loaded as [|first rest]; [done|]. simpl.
    assert (Ht : truthy (Session.id first) = true)
      by (apply truthy_true, Hne; left).
    rewrite Ht. left.
  - split; [|simpl; left].
    intros s [-> | Hs]%elem_of_cons; [done | by apply Hne].
Qed.

(** X12: when the sessions that were loaded have non-empty ids, then at every
    moment, whatever the user does, the pointer is the id of a session of
    the collection, or [null] with an empty collection: as long as there is
    a session, one session is active, and every id is a non-empty
    string. *)
Theorem pointer_always_valid loaded auth t es :
  (∀ s, s ∈ loaded → Session.id s ≠ []) →
  let st := runEvents es (started loaded auth t) in
  Consistent st ∧ (sessions st ≠ [] → is_Some (activeSession st)).
Proof.
  intros Hne st.
  assert (Hc : Consistent st).
  { subst st. generalize (started_Consistent loaded auth t Hne).
    generalize (started loaded auth t). induction es as [|e es IH]; intros x Hx; [done|].
    simpl. apply IH. by apply react_Consistent. }
  split; [exact Hc | by apply Consistent_active].
Qed.

Lemma pointer_always_valid_witness :
  let loaded := [Session.mk (js "sess_1") (js "Old") (js "t") []] in
  let es := [ClickNewSession (mkTick 2 (js "t2")); ClickDelete; ClickDelete;
             ClickNewSession (mkTick 3 (js "t3")); TypeSearch (js "new"); ClickSession 0] in
  let st := runEvents es (started loaded None (mkTick 0 (js "t0"))) in
  ids st = [js "sess_3"] ∧ Consistent st.
Proof.
  intros loaded es st. split; [reflexivity|].
  apply (pointer_always_valid loaded None (mkTick 0 (js "t0")) es).
  intros s [-> | Hs]%elem_of_cons; [discriminate | by apply elem_of_nil in Hs].
Defined.

End Lifetime.

(** ** The ids, whatever the user does *)

Section Identity.

Implicit Types (st : State) (s : Session.t) (e : Event).

Lemma createdBy_cons e es :
  createdBy (e :: es)
  = match e with ClickNewSession t => t :: createdBy es | _ => createdBy es end.
Proof. by destruct e. Qed.

(** The ids after an event: one more in front, or some of those that were
    there, in their order. *)
Lemma react_ids st e :
  (∃ t, e = ClickNewSession t ∧
        ids (react st e) = (js "sess_" ++ number (now t)) :: ids st) ∨
  ((∀ t, e ≠ ClickNewSession t) ∧ ids (react st e) `sublist_of` ids st).
Proof.
  destruct (react_sessions st e) as [(t & -> & Hr) | [(i & Hr) | (f & Hf & Hr)]].
  - left. exists t. split; [done|]. unfold ids. by rewrite Hr.
  - destruct e as [t| | | | | | |]; [left; exists t; split; [done | apply ids_new]|..];
      (right; split; [done|]; unfold ids; rewrite Hr;
       apply fmap_sublist, sublist_filter).
  - destruct e as [t| | | | | | |]; [left; exists t; split; [done | apply ids_new]|..];
      (right; split; [done|]; unfold ids; rewrite Hr, (Continues_ids f _ Hf); done).
Qed.

(** X13: whatever the user does (create, delete, select, rename, send, type,
    sign in or out), the ids of the sessions stay pairwise distinct as long
    as the clock readings of the sessions that are created are pairwise
    distinct and give no id that is already in use. *)
Theorem events_keep_ids_distinct es st :
  NoDup (ids st) →
  NoDup (now <$> createdBy es) →
  (∀ t, t ∈ createdBy es → js "sess_" ++ number (now t) ∉ ids st) →
  NoDup (ids (runEvents es st)).
Proof.
  revert st. induction es as [|e es IH]; intros st Hst Hts Hfresh; [done|].
  change (runEvents (e :: es) st) with (runEvents es (react st e)).
  rewrite createdBy_cons in Hts, Hfresh.
  destruct (react_ids st e) as [(t & -> & Hi) | [Hne Hsub]].
  - rewrite fmap_cons in Hts. apply NoDup_cons in Hts as [Hnew Hts].
    apply IH; [|done|].
    + rewrite Hi. constructor; [|done]. apply Hfresh. left.
    + intros t' Ht'. rewrite Hi. intros [Heq|Hin]%elem_of_cons.
      * apply sessionId_inj in Heq. apply Hnew. rewrite <- Heq.
        apply list_elem_of_fmap. by exists t'.
      * eapply Hfresh; [|done]. by right.
  - assert (Hc : match e with ClickNewSession t => t :: createdBy es | _ => createdBy es end
                 = createdBy es) by (destruct e; try done; by destruct (Hne t)).
    rewrite Hc in Hts, Hfresh.
    apply IH; [by apply (sublist_NoDup _ _ Hst) | done |].
    intros t Ht Hin. eapply Hfresh; [done|]. by eapply elem_of_sublist.
Qed.

Lemma events_keep_ids_distinct_witness :
  let old := Session.mk (js "sess_1") (js "Old") (js "t") [] in
  let st := mkState [old] (Some (js "sess_1")) (js "hello") false None [] in
  let es := [ClickNewSession (mkTick 2 (js "t2"));
             Send (mkTick 2 (js "t2")) (mkTick 3 (js "t3")) (Throw null);
             ClickNewSession (mkTick 3 (js "t3")); ClickDelete;
             ClickRename (Some (js "Kept"))] in
  ids (runEvents es st) = [js "sess_2"; js "sess_1"] ∧ NoDup (ids (runEvents es st)).
Proof.
  intros old st es. split; [reflexivity|].
  apply (events_keep_ids_distinct es st).
  - vm_compute. apply NoDup_singleton.
  - vm_compute. apply NoDup_cons. split; [|apply NoDup_singleton].
    intros H. apply list_elem_of_singleton in H. discriminate H.
  - intros t Ht. vm_compute in Ht.
    apply elem_of_cons in Ht as [-> | Ht];
      [|apply list_elem_of_singleton in Ht as ->];
      vm_compute; intros H; apply list_elem_of_singleton in H; discriminate H.
Defined.

End Identity.

(** ** Titles, the search and the composer *)

Section Views.

Implicit Types (st : State) (s active : Session.t) (q text : jsstring).

(** X14: a title cut by [truncateTitle] has at most [len + 1] code units,
    starts as the text does, is not empty when the text is not, and is
    left as it is when it is cut a second time. *)
Theorem truncateTitle_bounded text len :
  length (truncateTitle text len) ≤ len + 1 ∧
  take len (truncateTitle text len) = take len text ∧
  (text ≠ [] → truncateTitle text len ≠ []) ∧
  truncateTitle (truncateTitle text len) len = truncateTitle text len.
Proof.
  unfold truncateTitle, slice0, ellipsis.
  destruct (Nat.ltb_spec len (length text)) as [Hlt|Hge].
  - assert (Hl : length (take len text) = len) by (rewrite length_take; lia).
    assert (Ht : take len (take len text ++ [8230%N]) = take len text).
    { rewrite take_app_le by lia. rewrite take_ge by lia. done. }
    split; [rewrite length_app, Hl; simpl; lia|]. split; [exact Ht|].
    split; [intros _; by destruct (take len text)|].
    rewrite length_app, Hl. simpl.
    destruct (Nat.ltb_spec len (len + 1)); [|lia]. by rewrite Ht.
  - split; [lia|]. split; [done|]. split; [done|].
    by destruct (Nat.ltb_spec len (length text)); [lia|].
Qed.

Lemma truncateTitle_bounded_witness :
  length (truncateTitle (js "What is a B-tree?") 4) = 5 ∧
  truncateTitle (js "What is a B-tree?") 4 ≠ [].
Proof.
  destruct (truncateTitle_bounded (js "What is a B-tree?") 4) as (_ & _ & Hne & _).
  split; [reflexivity|]. apply Hne. discriminate.
Defined.

Lemma isSubstring_trans a b c : isSubstring a b → isSubstring b c → isSubstring a c.
Proof.
  intros (p1 & q1 & ->) (p2 & q2 & ->). exists (p2 ++ p1), (q1 ++ q2).
  by rewrite <- !app_assoc.
Qed.

Lemma isSubstring_nil_inv a : isSubstring a [] → a = [].
Proof.
  intros (p & q & H). symmetry in H. apply app_eq_nil in H as [_ H].
  by apply app_eq_nil in H as [H _].
Qed.

Lemma elem_of_List_filter (p : Session.t → bool) (l : list Session.t) s :
  s ∈ List.filter p l ↔ s ∈ l ∧ p s = true.
Proof. rewrite !list_elem_of_In. apply filter_In. Qed.

(** X15: the history only ever shows sessions of the collection, in their
    order, and a longer query shows fewer of them: when the query [q], once
    trimmed and lower-cased, is part of the query [q'], trimmed and
    lower-cased, every session shown for [q'] is shown for [q]. *)
Theorem longer_query_shows_fewer st q q' :
  isSubstring (toLowerCase (trim q)) (toLowerCase (trim q')) →
  filteredSessions st `sublist_of` sessions st ∧
  ∀ s, s ∈ filteredSessions (searchFor q' st) → s ∈ filteredSessions (searchFor q st).
Proof.
  intros Hsub. split; [apply filteredSessions_sublist|].
  intros s. unfold filteredSessions, searchFor, dispatch, setSearch. simpl.
  destruct (toLowerCase (trim q')) as [|c' n'] eqn:Hq'.
  { apply isSubstring_nil_inv in Hsub. by rewrite Hsub. }
  destruct (toLowerCase (trim q)) as [|c n] eqn:Hq; simpl.
  { by intros [Hs _]%elem_of_List_filter. }
  rewrite !elem_of_List_filter, !matchesQuery_spec.
  intros [Hs Hm]. split; [done|].
  destruct Hm as [Ht | (m & Hm & Hc)]; [left | right; exists m; split; [done|]];
    by eapply isSubstring_trans.
Qed.

Lemma longer_query_shows_fewer_witness :
  let a := Session.mk (js "a") (js "B-trees") (js "t") [] in
  let b := Session.mk (js "b") (js "Tries") (js "t") [] in
  let st := mkState [a; b] None [] false None [] in
  filteredSessions (searchFor (js "TR") st) = [a; b] ∧
  filteredSessions (searchFor (js " tree") st) = [a] ∧
  ∀ s, s ∈ filteredSessions (searchFor (js " tree") st) →
       s ∈ filteredSessions (searchFor (js "TR") st).
Proof.
  intros a b st. split; [reflexivity|]. split; [reflexivity|].
  apply (longer_query_shows_fewer st (js "TR") (js " tree")).
  exists [], (js "ee"). reflexivity.
Defined.

(** X16: the keyboard shortcut does not look at [isSending].  While a
    first send waits for its answer and the user has typed a new question,
    the Send button is disabled and a click on it does nothing, but
    Ctrl+Enter or Cmd+Enter sends the new question: the active session gains
    the second user message and what the second settlement adds while the
    first send still waits, and the [finally] of the second send sets
    [isSending] to false although the first is still in flight, so that the
    button is enabled again for any question that is not blank.  When the
    first send settles in its turn, what it adds comes last. *)
Theorem shortcut_sends_while_sending st active e q2 t1 t2 t3 t4 settled1 settled2 :
  (metaKey e = true ∨ ctrlKey e = true) →
  key e = js "Enter" →
  trim (question st) ≠ [] →
  trim q2 ≠ [] →
  activeSession st = Some active →
  let waiting := dispatch (λ _, setQuestion q2) (sendStarted st t1) in
  let second := dispatch (λ r, onKeyDown r e t3 t4 id settled2) waiting in
  let st' := dispatch (λ r, handleSend r t1 t2
                              (λ x, dispatch (λ r', onKeyDown r' e t3 t4 id settled2)
                                      (dispatch (λ _, setQuestion q2) x))
                              settled1) st in
  (isSending waiting = true ∧
   sendDisabled (question waiting) (isSending waiting) = true ∧
   dispatch (λ r, onSendClick r t3 t4 id settled2) waiting = waiting) ∧
  (∃ s2, activeSession second = Some s2 ∧
         Session.messages s2
         = Session.messages active
           ++ [userMessage st t1; userMessage waiting t3] ++ settledMessages t4 settled2) ∧
  (isSending second = false ∧
   ∀ q3, trim q3 ≠ [] → sendDisabled q3 (isSending second) = false) ∧
  (∃ s', activeSession st' = Some s' ∧
         Session.messages s'
         = Session.messages active
           ++ [userMessage st t1; userMessage waiting t3]
           ++ settledMessages t4 settled2 ++ settledMessages t2 settled1).
Proof.
  intros Hmod Hkey Hq Hq2 Hact waiting second st'.
  destruct (activeSession_Some _ _ Hact) as [_ Hid].
  assert (Hk : handleKeyDown e = true).
  { unfold handleKeyDown. rewrite (bool_decide_eq_true_2 _ Hkey).
    destruct Hmod as [-> | ->]; [done | by rewrite orb_true_r]. }
  set (u := λ s, if negb (isActive st s) then s
                 else Session.withMessages s (Session.messages s ++ [userMessage st t1])).
  assert (Hw : activeSession waiting = Some (u active)).
  { apply (activeSession_map st _ u active); try done.
    intros s. unfold u. by destruct (negb (isActive st s)). }
  assert (Hu : u active = Session.withMessages active
                            (Session.messages active ++ [userMessage st t1])).
  { unfold u. by rewrite (isActive_id st active active Hid), bool_decide_eq_true_2. }
  assert (Hqw : trim (question waiting) ≠ []) by done.
  assert (Hsecond : second = dispatch (λ r, handleSend r t3 t4 id settled2) waiting).
  { unfold second, dispatch, onKeyDown. by rewrite Hk. }
  assert (Hs2 := send_active_session waiting (u active) t3 t4 id settled2
                   keepsSessions_id Hqw Hw).
  rewrite <- Hsecond in Hs2.
  split; [|split; [|split]].
  - split; [done|]. split; [done|].
    reflexivity.
  - eexists. split; [exact Hs2|]. simpl. rewrite Hu. simpl.
    by rewrite <- app_assoc.
  - assert (Hflag : isSending second = false).
    { rewrite Hsecond. unfold dispatch.
      by rewrite (handleSend_settles waiting (u active) t3 t4 id settled2 Hqw Hw). }
    split; [exact Hflag|]. intros q3 Hq3. rewrite Hflag. unfold sendDisabled.
    apply truthy_true in Hq3. by rewrite Hq3.
  - assert (Hp2 : activeSessionId second = activeSessionId st).
    { rewrite Hsecond. unfold dispatch.
      by rewrite (handleSend_settles waiting (u active) t3 t4 id settled2 Hqw Hw). }
    set (f := settledSession active (settledTitle st active settled1)
                             (settledMessages t2 settled1)).
    assert (Hst' : sessions st' = map f (sessions second)
                   ∧ activeSessionId st' = activeSessionId second).
    { split; unfold st'; unfold dispatch at 1;
        by rewrite (handleSend_settles st active t1 t2 _ settled1 Hq Hact). }
    destruct Hst' as [Hss Hpp].
    assert (Hfid : ∀ s, Session.id (f s) = Session.id s)
      by (intros s; unfold f, settledSession; by case_bool_decide).
    rewrite (activeSession_map second st' f _ Hfid Hpp Hss Hs2).
    eexists. split; [done|].
    unfold f, settledSession. simpl. rewrite bool_decide_eq_true_2 by (by rewrite Hu).
    simpl. rewrite Hu. simpl. by rewrite <- !app_assoc.
Qed.

Lemma shortcut_sends_while_sending_witness :
  let active := Session.mk (js "s1") (js "Trees") (js "t") [] in
  let st := mkState [active] (Some (js "s1")) (js "first") false None [] in
  let e := mkKeyEvent false true (js "Enter") in
  let waiting := dispatch (λ _, setQuestion (js "second")) (sendStarted st (mkTick 1 (js "t1"))) in
  let st' := dispatch (λ r, handleSend r (mkTick 1 (js "t1")) (mkTick 4 (js "t4"))
                              (λ x, dispatch (λ r', onKeyDown r' e (mkTick 2 (js "t2"))
                                                      (mkTick 3 (js "t3")) id (Throw undefined))
                                      (dispatch (λ _, setQuestion (js "second")) x))
                              (Normal (mkResponse (js "answer")))) st in
  sendDisabled (question waiting) (isSending waiting) = true ∧
  ∃ s', activeSession st' = Some s' ∧
        Message.content <$> Session.messages s' = [js "first"; js "second"; js "answer"].
Proof.
  intros active st e waiting st'.
  destruct (shortcut_sends_while_sending st active e (js "second") (mkTick 1 (js "t1"))
              (mkTick 4 (js "t4")) (mkTick 2 (js "t2")) (mkTick 3 (js "t3"))
              (Normal (mkResponse (js "answer"))) (Throw undefined))
    as ((_ & Hd & _) & _ & _ & s' & Hs' & Hm).
  - by right.
  - reflexivity.
  - vm_compute. discriminate.
  - vm_compute. discriminate.
  - reflexivity.
  - split; [exact Hd|]. exists s'. split; [exact Hs'|]. rewrite Hm. reflexivity.
Defined.

(** X17: the Send button is enabled exactly when [isSending] is false and
    the question has something else than white space; so with a session
    active the guard of [handleSend] cannot refuse what the button let
    through, and the click sends: the active session gains the user message
    and then what the settled Query Service adds. *)
Theorem enabled_button_sends st active t1 t2 settled :
  sendDisabled (question st) (isSending st) = false →
  activeSession st = Some active →
  (∀ q sending, sendDisabled q sending = false ↔ sending = false ∧ trim q ≠ []) ∧
  isSending st = false ∧ trim (question st) ≠ [] ∧
  ∃ s', activeSession (dispatch (λ r, onSendClick r t1 t2 id settled) st) = Some s' ∧
        Session.messages s'
        = Session.messages active ++ userMessage st t1 :: settledMessages t2 settled.
Proof.
  intros Hd Hact.
  assert (Hiff : ∀ q sending,
            sendDisabled q sending = false ↔ sending = false ∧ trim q ≠ []).
  { intros q sending. unfold sendDisabled.
    rewrite orb_false_iff, negb_false_iff, truthy_true. done. }
  split; [exact Hiff|].
  destruct (proj1 (Hiff _ _) Hd) as [Hs Hq].
  split; [done|]. split; [done|].
  assert (Hclick : dispatch (λ r, onSendClick r t1 t2 id settled) st
                   = dispatch (λ r, handleSend r t1 t2 id settled) st)
    by (unfold dispatch, onSendClick; by rewrite Hd).
  rewrite Hclick.
  rewrite (send_active_session st active t1 t2 id settled keepsSessions_id Hq Hact).
  by eexists.
Qed.

Lemma enabled_button_sends_witness :
  let active := Session.mk (js "s1") (js "Trees") (js "t") [] in
  let st := mkState [active] (Some (js "s1")) (js "a question") false None [] in
  ∃ s', activeSession (dispatch (λ r, onSendClick r (mkTick 1 (js "t1"))
                                        (mkTick 2 (js "t2")) id
                                        (Normal (mkResponse (js "answer")))) st)
        = Some s' ∧ length (Session.messages s') = 2.
Proof.
  intros active st.
  destruct (enabled_button_sends st active (mkTick 1 (js "t1")) (mkTick 2 (js "t2"))
              (Normal (mkResponse (js "answer"))))
    as (_ & _ & _ & s' & Hs' & Hm).
  - reflexivity.
  - reflexivity.
  - exists s'. split; [exact Hs'|]. by rewrite Hm.
Defined.

End Views.

(** ** The mocked Query Service *)

Section QueryService.

Implicit Types (st : State) (w text : jsstring) (words : list jsstring).

Lemma splitRuns_word w rest acc b :
  isWord w → splitRuns (w ++ rest) acc b = splitRuns rest (acc ++ w) false.
Proof.
  intros [Hne Hw]. revert acc b. induction Hw as [|c w Hc Hw IH]; intros acc b; [done|].
  simpl. rewrite Hc. destruct w as [|d w]; [done|].
  rewrite IH by done. by rewrite <- app_assoc.
Qed.

Lemma join_cons2 sep p q parts :
  join sep (p :: q :: parts) = p ++ sep ++ join sep (q :: parts).
Proof. reflexivity. Qed.

(** Splitting what was joined with single spaces gives the words back. *)
Lemma splitRuns_join words b :
  words ≠ [] → Forall isWord words →
  splitRuns (join (js " ") words) [] b = words.
Proof.
  intros Hne Hall. revert b. induction Hall as [|w words Hw Hall IH]; intros b; [done|].
  destruct words as [|v words].
  - simpl. rewrite <- (app_nil_r w) at 1. by rewrite splitRuns_word.
  - rewrite join_cons2, splitRuns_word by done. simpl.
    by rewrite IH.
Qed.

Lemma trimStart_fixed s :
  (∀ c s', s = c :: s' → isWhiteSpace c = false) → trimStart s = s.
Proof. destruct s as [|c s]; [done|]. intros H. simpl. by rewrite (H c s eq_refl). Qed.

Lemma trim_fixed s : trimmed s → trim s = s.
Proof.
  intros [Hhead Hlast]. unfold trim, trimEnd.
  rewrite (trimStart_fixed s Hhead), trimStart_fixed; [apply reverse_involutive|].
  intros c s' Hr. apply (Hlast c (reverse s')).
  by rewrite <- (reverse_involutive s), Hr, reverse_cons.
Qed.

Lemma trim_idemp s : trim (trim s) = trim s.
Proof. destruct (trim_spec s) as (_ & _ & _ & _ & _ & Ht). by apply trim_fixed. Qed.

Lemma join_words_head words c s' :
  Forall isWord words → join (js " ") words = c :: s' → isWhiteSpace c = false.
Proof.
  intros Hall. destruct Hall as [|w words [Hne Hw] Hall]; [done|].
  destruct Hw as [|d w Hd Hw]; [done|].
  destruct words; simpl; intros [= <- _]; done.
Qed.

Lemma join_words_last words c :
  Forall isWord words → last (join (js " ") words) = Some c → isWhiteSpace c = false.
Proof.
  intros Hall. induction Hall as [|w words [Hne Hw] Hall IH]; [done|].
  destruct words as [|v words].
  - simpl. intros Hl. rewrite Forall_forall in Hw. apply Hw.
    by apply last_Some_elem_of.
  - rewrite join_cons2, !last_app.
    destruct (last (join (js " ") (v :: words))) as [x|] eqn:Hx; [intros [= <-]; by apply IH|].
    apply last_None in Hx. apply Forall_cons in Hall as [[Hv _] _].
    destruct v; [done|]. by destruct words.
Qed.

Lemma join_words_trimmed words : Forall isWord words → trimmed (join (js " ") words).
Proof.
  intros Hall. split.
  - intros c s' Hj. by eapply join_words_head.
  - intros c s' Hj. eapply join_words_last; [done|]. by rewrite Hj, last_snoc.
Qed.

Lemma join_words_nonempty words :
  words ≠ [] → Forall isWord words → join (js " ") words ≠ [].
Proof.
  intros Hne Hall. destruct Hall as [|w words [Hw _] _]; [done|].
  destruct w; [done|]. by destruct words.
Qed.

(** X18: [synthesize] never gives an empty text; for a blank question it
    gives the fixed hint; and for a question made of words with one space
    between them it gives the question itself when it has at most twelve
    words, and else its first twelve words, with one space between them,
    followed by an ellipsis. *)
Theorem synthesize_echoes :
  (∀ text, synthesize text ≠ []) ∧
  (∀ text, blank text →
           synthesize text = js "Ask a specific question to get a specific answer.") ∧
  (∀ words, words ≠ [] → Forall isWord words →
            synthesize (join (js " ") words)
            = if 12 <? length words
              then join (js " ") (take 12 words) ++ [8230%N]
              else join (js " ") words).
Proof.
  split; [|split].
  - intros text. unfold synthesize.
    destruct (trim text) as [|c t] eqn:Ht; [done|]. simpl.
    destruct (12 <? length (splitWhiteSpace (c :: t))); [|done].
    intros H. by apply app_eq_nil in H as [_ H].
  - intros text Hb. apply trim_blank in Hb. unfold synthesize. by rewrite Hb.
  - intros words Hne Hall. unfold synthesize.
    rewrite (trim_fixed _ (join_words_trimmed words Hall)).
    pose proof (join_words_nonempty words Hne Hall) as Hj.
    apply truthy_true in Hj. rewrite Hj. simpl.
    unfold splitWhiteSpace. by rewrite splitRuns_join.
Qed.

Lemma synthesize_echoes_witness :
  let short := [js "what"; js "is"; js "a"; js "b-tree"] in
  let long := [js "a"; js "b"; js "c"; js "d"; js "e"; js "f"; js "g";
               js "h"; js "i"; js "j"; js "k"; js "l"; js "m"; js "n"] in
  synthesize (js "  ") = js "Ask a specific question to get a specific answer." ∧
  synthesize (join (js " ") short) = join (js " ") short ∧
  synthesize (join (js " ") long) = join (js " ") (take 12 long) ++ [8230%N].
Proof.
  intros short long. destruct synthesize_echoes as (_ & Hblank & Hwords).
  split; [apply Hblank; repeat constructor|]. split.
  - apply (Hwords short); [done|].
    repeat (constructor; [split; [done | repeat constructor]|]). constructor.
  - apply (Hwords long); [done|].
    repeat (constructor; [split; [done | repeat constructor]|]). constructor.
Defined.

Lemma askQuestion_answer random sid q u :
  ∃ tail, ApiClient.askQuestion random sid q u
          = Normal (mkResponse (default (js "undefined") (ApiClient.canned !! random)
                                ++ ApiClient.lf ++ ApiClient.lf ++ ApiClient.bullet
                                ++ synthesize q ++ tail)).
Proof. eexists. reflexivity. Qed.

(** X19: with the mocked Query Service a send that passes the guard never
    ends in an error message: the session gains the user message and then
    an assistant message that is not flagged as an error, is not empty, and
    holds what [synthesize] makes of the question; with an index that
    [Math.floor(Math.random() * 5)] can give, it starts with one of the
    five framing lines. *)
Theorem mock_send_never_errors st active random t1 t2 :
  trim (question st) ≠ [] →
  activeSession st = Some active →
  let settled :=
    ApiClient.askQuestion random (Session.id active) (trim (question st)) (authUser st) in
  let st' := dispatch (λ r, handleSend r t1 t2 id settled) st in
  ∃ s' a, activeSession st' = Some s' ∧
          Session.messages s' = Session.messages active ++ [userMessage st t1; a] ∧
          Message.role a = Message.assistant ∧
          Message.error a = false ∧
          Message.content a ≠ [] ∧
          isSubstring (synthesize (question st)) (Message.content a) ∧
          (random < 5 → ∃ line rest, line ∈ ApiClient.canned ∧
                                     Message.content a = line ++ rest).
Proof.
  intros Hq Hact settled st'. subst st' settled.
  destruct (askQuestion_answer random (Session.id active) (trim (question st))
              (authUser st)) as [tail ->].
  set (resp := mkResponse _).
  destruct (handleSend_resolved st active t1 t2 id resp keepsSessions_id Hq Hact)
    as (_ & _ & _ & Hs).
  eexists _, (assistantMessage t2 resp).
  split; [exact Hs|]. split; [done|]. split; [done|]. split; [done|].
  assert (Hsyn : synthesize (trim (question st)) = synthesize (question st))
    by (unfold synthesize; by rewrite trim_idemp).
  unfold assistantMessage, resp. cbn [Message.content answer].
  split; [|split].
  - intros H. apply app_eq_nil in H as [_ H]. by apply app_eq_nil in H as [H _].
  - rewrite Hsyn.
    exists (default (js "undefined") (ApiClient.canned !! random)
            ++ ApiClient.lf ++ ApiClient.lf ++ ApiClient.bullet), tail.
    by rewrite <- !app_assoc.
  - intros Hr.
    destruct (ApiClient.canned !! random) as [line|] eqn:Hl.
    + exists line. eexists. split; [by eapply list_elem_of_lookup_2 | done].
    + apply lookup_ge_None in Hl. unfold ApiClient.canned in Hl. cbn [length] in Hl. lia.
Qed.

Lemma mock_send_never_errors_witness :
  let active := Session.mk (js "s1") (js "New Session") (js "t") [] in
  let st := mkState [active] (Some (js "s1")) (js " what is a b-tree ") false None [] in
  let settled := ApiClient.askQuestion 1 (js "s1") (js "what is a b-tree") None in
  let st' := dispatch (λ r, handleSend r (mkTick 1 (js "t1")) (mkTick 2 (js "t2"))
                              id settled) st in
  ∃ s' a, activeSession st' = Some s' ∧
          Session.messages s' = [userMessage st (mkTick 1 (js "t1")); a] ∧
          Message.error a = false ∧
          isSubstring (js "what is a b-tree") (Message.content a).
Proof.
  intros active st settled st'.
  destruct (mock_send_never_errors st active 1 (mkTick 1 (js "t1")) (mkTick 2 (js "t2")))
    as (s' & a & Hs' & Hm & _ & He & _ & Hsub & _).
  - vm_compute. discriminate.
  - reflexivity.
  - exists s', a. split; [exact Hs'|]. split; [exact Hm|]. split; [exact He|]. exact Hsub.
Defined.

End QueryService.

(** ** The storage gateway and the mocked REST calls *)

Section Gateway.

Implicit Types (store : localStorage.t) (u : AuthUser.t) (user : option AuthUser.t).

Lemma key_ne_authKey : MockStorage.key ≠ MockStorage.authKey.
Proof. intros H. vm_compute in H. discriminate H. Qed.

Lemma authValue_plain u : JSON.plain (authValue u) = true.
Proof. reflexivity. Qed.

Lemma authValue_inj u u' : authValue u' = authValue u → u' = u.
Proof. destruct u, u'. unfold authValue. simpl. by intros [= -> -> ->]. Qed.

Lemma stringify_authValue_truthy u : truthy (JSON.stringify (authValue u)) = true.
Proof. reflexivity. Qed.

Lemma loadSessions_lookup items quota items' quota' :
  items' !! MockStorage.key = items !! MockStorage.key →
  MockStorage.loadSessions (localStorage.Store items' quota')
  = MockStorage.loadSessions (localStorage.Store items quota).
Proof. intros H. unfold MockStorage.loadSessions, localStorage.getItem. by rewrite H. Qed.

Lemma loadAuth_lookup items quota items' quota' :
  items' !! MockStorage.authKey = items !! MockStorage.authKey →
  MockStorage.loadAuth (localStorage.Store items' quota')
  = MockStorage.loadAuth (localStorage.Store items quota).
Proof. intros H. unfold MockStorage.loadAuth, localStorage.getItem. by rewrite H. Qed.

Lemma loadAuth_stored items quota raw :
  items !! MockStorage.authKey = Some raw →
  MockStorage.loadAuth (localStorage.Store items quota)
  = Normal (if truthy raw
            then match JSON.parse raw with Some v => v | None => JSON.Null end
            else JSON.Null).
Proof.
  intros Hraw. unfold MockStorage.loadAuth, localStorage.getItem. rewrite Hraw. simpl.
  destruct (truthy raw); [|done]. unfold MockStorage.JSON_parse.
  by destruct (JSON.parse raw).
Qed.

Lemma loadSessions_returns store : ∃ result, MockStorage.loadSessions store = Normal result.
Proof.
  destruct store as [|items quota]; [by eexists|].
  destruct (items !! MockStorage.key) as [raw|] eqn:Hraw.
  - rewrite (loadSessions_stored _ _ _ Hraw). by eexists.
  - unfold MockStorage.loadSessions, localStorage.getItem. rewrite Hraw. by eexists.
Qed.

Lemma saveAuth_Some_loadAuth u store :
  (localStorage.setItem MockStorage.authKey (JSON.stringify (authValue u)) store).1
  = Normal tt →
  MockStorage.loadAuth (MockStorage.saveAuth (Some u) store).2 = Normal (authValue u).
Proof.
  intros Hset.
  unfold MockStorage.saveAuth. destruct store as [|items quota]; [done|].
  unfold localStorage.setItem in *.
  destruct (localStorage.used _ <=? quota); [|done]. simpl.
  rewrite (loadAuth_stored _ _ (JSON.stringify (authValue u))) by apply lookup_insert_eq.
  by rewrite stringify_authValue_truthy, (parse_stringify _ (authValue_plain u)).
Qed.

Lemma saveAuth_None_loadAuth store :
  MockStorage.loadAuth (MockStorage.saveAuth None store).2 = Normal JSON.Null.
Proof.
  destruct store as [|items quota]; [done|].
  unfold MockStorage.saveAuth, localStorage.removeItem. simpl.
  unfold MockStorage.loadAuth, localStorage.getItem.
  by rewrite lookup_delete_eq.
Qed.

(** X20: when the store takes the write, [loadAuth] after [saveAuth(user)]
    for a signed-in user returns that user, field for field. *)
Theorem saveAuth_then_loadAuth u store :
  (localStorage.setItem MockStorage.authKey (JSON.stringify (authValue u)) store).1
  = Normal tt →
  MockStorage.loadAuth (MockStorage.saveAuth (Some u) store).2 = Normal (authValue u) ∧
  (∀ u', authValue u' = authValue u → u' = u).
Proof. intros Hset. split; [by apply saveAuth_Some_loadAuth | apply authValue_inj]. Qed.

Lemma saveAuth_then_loadAuth_witness :
  let u := AuthUser.mk (js "user_1") (js "Ocean Pro") (js "ocean.pro@example.com") in
  let store := localStorage.Store {[ MockStorage.authKey := js "stale" ]} 4096 in
  MockStorage.loadAuth (MockStorage.saveAuth (Some u) store).2 = Normal (authValue u).
Proof.
  intros u store.
  destruct (saveAuth_then_loadAuth u store) as [H _]; [vm_compute; reflexivity|].
  exact H.
Defined.

(** X21: [loadAuth] returns for every store; after [saveAuth(null)] it
    returns [null], whatever was stored before and also when the storage
    cannot be used; and it returns [null] when the text under the key is
    empty or is not JSON. *)
Theorem loadAuth_never_throws :
  (∀ store, ∃ result, MockStorage.loadAuth store = Normal result) ∧
  (∀ store, MockStorage.loadAuth (MockStorage.saveAuth None store).2 = Normal JSON.Null) ∧
  (∀ items quota raw,
     items !! MockStorage.authKey = Some raw → raw = [] ∨ JSON.parse raw = None →
     MockStorage.loadAuth (localStorage.Store items quota) = Normal JSON.Null).
Proof.
  split; [|split].
  - intros [|items quota]; [by eexists|].
    destruct (items !! MockStorage.authKey) as [raw|] eqn:Hraw.
    + rewrite (loadAuth_stored _ _ _ Hraw). by eexists.
    + unfold MockStorage.loadAuth, localStorage.getItem. rewrite Hraw. by eexists.
  - apply saveAuth_None_loadAuth.
  - intros items quota raw Hraw Hbad. rewrite (loadAuth_stored _ _ _ Hraw).
    destruct Hbad as [-> | ->]; [done|]. by destruct (truthy raw).
Qed.

Lemma loadAuth_never_throws_witness :
  let store := localStorage.Store {[ MockStorage.authKey := js "{broken" ]} 4096 in
  MockStorage.loadAuth store = Normal JSON.Null.
Proof.
  destruct loadAuth_never_throws as (_ & _ & H).
  apply (H _ _ (js "{broken")); [apply lookup_singleton_eq | right; reflexivity].
Defined.

Lemma saveAuth_keeps_sessions user store :
  MockStorage.loadSessions (MockStorage.saveAuth user store).2
  = MockStorage.loadSessions store.
Proof.
  pose proof key_ne_authKey as Hne.
  destruct user as [u|]; destruct store as [|items quota]; try done.
  - unfold MockStorage.saveAuth, localStorage.setItem.
    destruct (localStorage.used _ <=? quota); [|done]. simpl.
    apply loadSessions_lookup. by apply lookup_insert_ne.
  - unfold MockStorage.saveAuth, localStorage.removeItem. simpl.
    apply loadSessions_lookup. by apply lookup_delete_ne.
Qed.

Lemma saveSessions_keeps_auth sessions store :
  MockStorage.loadAuth (MockStorage.saveSessions sessions store).2
  = MockStorage.loadAuth store.
Proof.
  pose proof key_ne_authKey as Hne.
  destruct store as [|items quota]; [done|].
  unfold MockStorage.saveSessions, localStorage.setItem.
  destruct (localStorage.used _ <=? quota); [|done]. simpl.
  apply loadAuth_lookup. by apply lookup_insert_ne.
Qed.

(** X22: the sessions and the user are stored apart: saving or removing the
    user never changes what [loadSessions] returns, and saving sessions
    never changes what [loadAuth] returns, whether the store takes the
    write or not. *)
Theorem sessions_and_user_stored_apart store :
  (∀ user, MockStorage.loadSessions (MockStorage.saveAuth user store).2
           = MockStorage.loadSessions store) ∧
  (∀ sessions, MockStorage.loadAuth (MockStorage.saveSessions sessions store).2
               = MockStorage.loadAuth store).
Proof. split; intros; [apply saveAuth_keeps_sessions | apply saveSessions_keeps_auth]. Qed.

(** X23: the sign-in button signs a signed-in user out and signs the demo
    user in otherwise, and touches nothing else of the state.  With the
    sync of the user to the storage, a sign-out leaves [loadAuth] returning
    [null]; a sign-in leaves it returning the demo user when the store
    takes the write; and what [loadSessions] returns is as before. *)
Theorem auth_toggle_persisted st store :
  let st' := dispatch handleAuthToggle st in
  let store' := (MockStorage.saveAuth (authUser st') store).2 in
  sessions st' = sessions st ∧ activeSessionId st' = activeSessionId st ∧
  question st' = question st ∧ isSending st' = isSending st ∧ search st' = search st ∧
  (is_Some (authUser st) →
   authUser st' = None ∧ MockStorage.loadAuth store' = Normal JSON.Null) ∧
  (authUser st = None →
   ∃ u, authUser st' = Some u ∧
        u = AuthUser.mk (js "user_1") (js "Ocean Pro") (js "ocean.pro@example.com") ∧
        ((localStorage.setItem MockStorage.authKey
            (JSON.stringify (authValue u)) store).1 = Normal tt →
         MockStorage.loadAuth store' = Normal (authValue u))) ∧
  MockStorage.loadSessions store' = MockStorage.loadSessions store.
Proof.
  intros st' store'. subst store' st'. unfold dispatch, handleAuthToggle.
  destruct (authUser st) as [u0|] eqn:Hu; simpl.
  - repeat (split; [done|]). split; [|split; [done|apply saveAuth_keeps_sessions]].
    intros _. split; [done | apply saveAuth_None_loadAuth].
  - repeat (split; [done|]). split; [|apply saveAuth_keeps_sessions].
    intros _. eexists. split; [done|]. split; [done|].
    apply saveAuth_Some_loadAuth.
Qed.

Lemma auth_toggle_persisted_witness :
  let st := mkState [] None [] false None [] in
  let store := localStorage.Store ∅ 4096 in
  let st' := dispatch handleAuthToggle st in
  MockStorage.loadAuth (MockStorage.saveAuth (authUser st') store).2
  = Normal (authValue (AuthUser.mk (js "user_1") (js "Ocean Pro")
                                   (js "ocean.pro@example.com"))).
Proof.
  intros st store st'.
  destruct (auth_toggle_persisted st store) as (_ & _ & _ & _ & _ & _ & Hin & _).
  destruct (Hin eq_refl) as (u & _ & -> & Hload).
  apply Hload. vm_compute. reflexivity.
Defined.

(** X24: [createSession] always returns the new session, with the id
    [sess_] followed by the clock reading, the title it was given and no
    messages; and when the sessions in the store hold no numbers and the
    store takes the write, [listSessions] then returns the new session
    followed by those that were listed before, and the stored user is
    as it was. *)
Theorem createSession_prepends t title :
  let s := Session.mk (js "sess_" ++ number (now t)) title (iso t) [] in
  (∀ store, (ApiClient.createSession t title store).1 = Normal s) ∧
  (∀ store existing,
     ApiClient.listSessions store = Normal existing →
     forallb JSON.plain existing = true →
     (localStorage.setItem MockStorage.key
        (JSON.stringify (JSON.Arr (sessionValue s :: existing))) store).1 = Normal tt →
     let store' := (ApiClient.createSession t title store).2 in
     ApiClient.listSessions store' = Normal (sessionValue s :: existing) ∧
     MockStorage.loadAuth store' = MockStorage.loadAuth store).
Proof.
  intros s. split.
  - intros store. unfold ApiClient.createSession.
    destruct (loadSessions_returns store) as [existing ->].
    unfold MockStorage.saveSessions.
    by destruct (localStorage.setItem _ _ store) as [[?|?] ?].
  - intros store existing Hlist Hplain Hset store'. subst store'.
    unfold ApiClient.listSessions in *. unfold ApiClient.createSession.
    rewrite Hlist. fold s.
    pose proof (saveSessions_keeps_auth (sessionValue s :: existing) store) as Hauth.
    destruct (MockStorage.saveSessions (sessionValue s :: existing) store)
      as [[[]|e] store1] eqn:Hsave; simpl in *; (split; [|exact Hauth]).
    + unfold MockStorage.saveSessions in Hsave.
      destruct store as [|items quota]; [done|]. unfold localStorage.setItem in *.
      destruct (localStorage.used _ <=? quota); [|done]. simpl in Hsave.
      injection Hsave as <-.
      rewrite (loadSessions_stored _ _
                 (JSON.stringify (JSON.Arr (sessionValue s :: existing))))
        by apply lookup_insert_eq.
      rewrite parse_stringify; [done|].
      change (JSON.plain (sessionValue s) && forallb JSON.plain existing = true).
      by rewrite sessionValue_plain, Hplain.
    + unfold MockStorage.saveSessions in Hsave.
      by destruct (localStorage.setItem _ _ store) as [[?|?] ?].
Qed.

Lemma createSession_prepends_witness :
  let old := Session.mk (js "sess_1") (js "Old") (js "t1") [] in
  let store := localStorage.Store
                 {[ MockStorage.key := JSON.stringify (JSON.Arr [sessionValue old]) ]}
                 4096 in
  let t := mkTick 2 (js "t2") in
  let s := Session.mk (js "sess_2") (js "Second") (js "t2") [] in
  ApiClient.listSessions (ApiClient.createSession t (js "Second") store).2
  = Normal [sessionValue s; sessionValue old].
Proof.
  intros old store t s.
  destruct (createSession_prepends t (js "Second")) as [_ H].
  destruct (H store [sessionValue old]) as [Hl _];
    [vm_compute; reflexivity | vm_compute; reflexivity | vm_compute; reflexivity |].
  exact Hl.
Defined.

End Gateway.
